(** * Binding inventory rendering of wrangler's [printBindings]

    A shallow embedding of [printBindings], [normalizeValue] and
    [createAddSuffix] (packages/wrangler), together with the properties
    of the rendered inventory and of the local-development connectivity
    markers.

    Conventions of the embedding:
    - a JavaScript string is a [string]; [s.length] is [String.length]
      and [s.substring(0, n)] is [substring 0 n];
    - an optional field is an [option]; a value that may be [undefined],
      [null] or present is a [Nullable];
    - an object used as a dictionary and only read by key (the dev
      registry, [entrypointAddresses]) is the [gmap] of its own
      properties, read with [get_property], which finds the members
      inherited from [Object.prototype] as well; an object that is
      enumerated with [Object.entries] is an association list in
      enumeration order;
    - the local variables [output] and [hasConnectionStatus] and the
      calls to [logger] are threaded through a small state monad. *)

From Stdlib Require Import String Ascii List Bool Arith Lia.
From stdpp Require Import base option gmap strings list.

Import ListNotations.
Local Open Scope string_scope.
Local Open Scope list_scope.

(** ** JavaScript values and truthiness *)

(** A value of TypeScript type [string | symbol | undefined]. *)
Inductive JsValue : Type :=
| JsUndefined
| JsSymbol
| JsString (s : string).

(** A value of TypeScript type [T | null | undefined]. *)
Inductive Nullable (A : Type) : Type :=
| Undefined
| Null
| Defined (a : A).
Arguments Undefined {A}.
Arguments Null {A}.
Arguments Defined {A} a.

(** [!!s] for a string: every string but the empty one is truthy. *)
Definition truthy_string (s : string) : bool :=
  match s with
  | EmptyString => false
  | String _ _ => true
  end.

(** [!!x] for [x : string | undefined]. *)
Definition truthy_ostring (o : option string) : bool :=
  match o with
  | Some s => truthy_string s
  | None => false
  end.

(** [!!x] for [x : boolean | undefined]. *)
Definition truthy_obool (o : option bool) : bool :=
  match o with
  | Some b => b
  | None => false
  end.

(** [!!x] for [x : string | symbol | undefined]: a symbol is truthy. *)
Definition truthy_value (v : JsValue) : bool :=
  match v with
  | JsUndefined => false
  | JsSymbol => true
  | JsString s => truthy_string s
  end.

(** [typeof v === "symbol"]. *)
Definition is_symbol (v : JsValue) : bool :=
  match v with
  | JsSymbol => true
  | _ => false
  end.

(** [l.join(sep)] on an array of strings. *)
Fixpoint join (sep : string) (l : list string) : string :=
  match l with
  | [] => EmptyString
  | [x] => x
  | x :: rest => x +:+ sep +:+ join sep rest
  end.

(** [s.endsWith(suffix)]. *)
Definition endsWith (s suffix : string) : bool :=
  let n := String.length s in
  let k := String.length suffix in
  Nat.leb k n && String.eqb (substring (n - k) k s) suffix.

(** ** The environment of a run *)

(** What a run reads from outside the module: whether chalk emits
    colour codes (its colour-support level is above zero) and the two
    experimental flags consulted through [getFlag]. *)
Record Env : Type := {
  colorEnabled : bool;
  MIXED_MODE : bool;
  MULTIWORKER : bool;
}.

Definition ESC : string := String (ascii_of_nat 27) EmptyString.

(** chalk wraps its argument in an SGR open and close sequence when
    colours are enabled and returns it unchanged otherwise; an empty
    argument stays empty. *)
Definition chalk_wrap (env : Env) (open close : string) (s : string) : string :=
  if colorEnabled env
  then (if truthy_string s then ESC +:+ open +:+ s +:+ ESC +:+ close else s)
  else s.

Definition chalk_green (env : Env) : string -> string := chalk_wrap env "[32m" "[39m".
Definition chalk_red (env : Env) : string -> string := chalk_wrap env "[31m" "[39m".
Definition chalk_blue (env : Env) : string -> string := chalk_wrap env "[34m" "[39m".

(** ** [normalizeValue] and [createAddSuffix] *)

Definition normalizeValue (value : JsValue) : string :=
  if negb (truthy_value value) || is_symbol value then EmptyString
  else match value with
       | JsString s => s
       | _ => EmptyString
       end.

(** [createAddSuffix({isProvisioning = false, isLocalDev = false})]
    returns the closure [addSuffix(value, {isSimulatedLocally = false} = {})];
    an omitted option is [None]. *)
Definition createAddSuffix (isProvisioning isLocalDev : option bool)
    (value : JsValue) (isSimulatedLocally : option bool) : string :=
  let isProvisioning := default false isProvisioning in
  let isLocalDev := default false isLocalDev in
  let isSimulatedLocally := default false isSimulatedLocally in
  let normalizedValue := normalizeValue value in
  if isProvisioning || negb isLocalDev then normalizedValue
  else if isSimulatedLocally
       then normalizedValue +:+ " [simulated locally]"
       else normalizedValue +:+ " [connected to remote resource]".

(** ** Built-ins the module calls

    [JSON.stringify] and the string conversion of a template literal
    are JavaScript built-ins; the development is parametric in them.
    [Json] is the type of the values with [typeof value === "object"],
    [Primitive] the type of numbers and booleans. *)
Class Builtins : Type := {
  Json : Type;
  Primitive : Type;
  (** [JSON.stringify(value)] *)
  JSON_stringify : Json -> string;
  (** [JSON.stringify(value, null, 1)] *)
  JSON_stringify_indent : Json -> string;
  (** the text of [value] in a template literal *)
  String_of : Primitive -> string;
}.

(** ** The data model *)

(** Modelled from the spec: the dev registry types ([WorkerRegistry],
    [WorkerDefinition], dev-registry) are declared outside the sources
    at hand. A registry maps a service name to the sequence of durable
    objects and the mapping of entrypoint names to addresses that the
    service exposes; the code reads [entrypointAddresses] with [?.], so
    the mapping may be missing. *)
Record Address : Type := { host : string; port : N }.

Record DurableObjectDefinition : Type := { className : string }.

Record WorkerDefinition : Type := {
  durableObjects : list DurableObjectDefinition;
  entrypointAddresses : option (gmap string Address);
}.

Abbreviation WorkerRegistry := (gmap string WorkerDefinition).

(** The [context] argument of [printBindings]. *)
Record Context : Type := {
  registry : Nullable WorkerRegistry;
  local : option bool;
  imagesLocalMode : option bool;
  name : option string;
  provisioning : option bool;
}.

(** Modelled from the spec: the binding record types ([CfWorkerInit],
    [CfTailConsumer], deployment-bundle/worker) are declared outside the
    sources at hand. Each record has the fields that [printBindings]
    reads, at the type it reads them: a field tested with [typeof] or
    handed to [addSuffix] may be a string, a symbol or missing. *)
Inductive BlobValue : Type :=
| BlobString (s : string)
| BlobBinary.

Record CfDurableObject : Type := {
  do_name : string;
  do_class_name : string;
  do_script_name : option string;
}.

Record CfWorkflowBinding : Type := {
  wf_binding : string;
  wf_class_name : string;
  wf_script_name : option string;
  wf_remote : option bool;
}.

Record CfKvNamespace : Type := {
  kv_binding : string;
  kv_id : JsValue;
  kv_remote : option bool;
}.

Record CfSendEmailBindings : Type := {
  email_name : string;
  email_destination_address : option string;
  email_allowed_destination_addresses : option (list string);
}.

Record CfQueue : Type := {
  queue_binding : string;
  queue_name : string;
  queue_remote : option bool;
}.

Record CfD1Database : Type := {
  d1_binding : string;
  d1_database_name : option string;
  d1_database_id : JsValue;
  d1_preview_database_id : option string;
  d1_remote : option bool;
}.

Record CfVectorize : Type := {
  vectorize_binding : string;
  vectorize_index_name : string;
}.

Record CfHyperdrive : Type := {
  hyperdrive_binding : string;
  hyperdrive_id : string;
}.

Record CfR2Bucket : Type := {
  r2_binding : string;
  r2_bucket_name : JsValue;
  r2_jurisdiction : option string;
  r2_remote : option bool;
}.

Record CfLogfwdrBinding : Type := {
  logfwdr_name : string;
  logfwdr_destination : string;
}.

Record CfSecretsStoreSecrets : Type := {
  secret_binding : string;
  secret_store_id : string;
  secret_name : string;
}.

Record CfService : Type := {
  service_binding : string;
  service_service : string;
  service_entrypoint : option string;
  service_remote : option bool;
}.

Record CfAnalyticsEngineDataset : Type := {
  ae_binding : string;
  ae_dataset : option string;
}.

Record CfAIBinding : Type := {
  ai_binding : string;
  ai_staging : option bool;
}.

Record CfPipeline : Type := {
  pipeline_binding : string;
  pipeline_pipeline : string;
}.

Record CfUnsafeBinding : Type := {
  unsafe_name : string;
  unsafe_type : string;
}.

Record CfUnsafe `{Builtins} : Type := {
  unsafe_bindings : option (list CfUnsafeBinding);
  unsafe_metadata : option (list (string * Json));
}.

Inductive VarValue `{Builtins} : Type :=
| VarString (s : string)
| VarObject (j : Json)
| VarPrimitive (p : Primitive).

Record CfDispatchOutbound : Type := { outbound_service : string }.

Record CfDispatchNamespace : Type := {
  dispatch_binding : string;
  dispatch_namespace : string;
  dispatch_outbound : option CfDispatchOutbound;
}.

Record CfMTlsCertificate : Type := {
  mtls_binding : string;
  mtls_certificate_id : string;
}.

Record CfTailConsumer : Type := { tail_service : string }.

(** [Partial<CfWorkerInit["bindings"]>]: every kind may be missing. A
    map kind is the list of its entries in [Object.entries] order; a
    singleton kind is the [binding] name of its one record;
    [durable_objects] and [logfwdr] hold their [bindings] array. *)
Record Bindings `{Builtins} : Type := {
  data_blobs : option (list (string * BlobValue));
  durable_objects : option (list CfDurableObject);
  workflows : option (list CfWorkflowBinding);
  kv_namespaces : option (list CfKvNamespace);
  send_email : option (list CfSendEmailBindings);
  queues : option (list CfQueue);
  d1_databases : option (list CfD1Database);
  vectorize : option (list CfVectorize);
  hyperdrive : option (list CfHyperdrive);
  r2_buckets : option (list CfR2Bucket);
  logfwdr : option (list CfLogfwdrBinding);
  secrets_store_secrets : option (list CfSecretsStoreSecrets);
  services : option (list CfService);
  analytics_engine_datasets : option (list CfAnalyticsEngineDataset);
  text_blobs : option (list (string * string));
  browser : option string;
  images : option string;
  ai : option CfAIBinding;
  version_metadata : option string;
  unsafe : option CfUnsafe;
  vars : option (list (string * VarValue));
  wasm_modules : option (list (string * BlobValue));
  dispatch_namespaces : option (list CfDispatchNamespace);
  mtls_certificates : option (list CfMTlsCertificate);
  pipelines : option (list CfPipeline);
  assets : option string;
}.

(** The elements of [output]. *)
Record DisplayEntry : Type := { key : string; value : string }.

Record DisplayGroup : Type := {
  group_name : string;
  entries : list DisplayEntry;
}.

(** [friendlyBindingNames] *)
Module friendlyBindingNames.
Definition data_blobs := "Data Blobs".
Definition durable_objects := "Durable Objects".
Definition kv_namespaces := "KV Namespaces".
Definition send_email := "Send Email".
Definition queues := "Queues".
Definition d1_databases := "D1 Databases".
Definition vectorize := "Vectorize Indexes".
Definition hyperdrive := "Hyperdrive Configs".
Definition r2_buckets := "R2 Buckets".
Definition logfwdr := "logfwdr".
Definition services := "Services".
Definition analytics_engine_datasets := "Analytics Engine Datasets".
Definition text_blobs := "Text Blobs".
Definition browser := "Browser".
Definition ai := "AI".
Definition images := "Images".
Definition version_metadata := "Worker Version Metadata".
Definition unsafe := "Unsafe Metadata".
Definition vars := "Vars".
Definition wasm_modules := "Wasm Modules".
Definition dispatch_namespaces := "Dispatch Namespaces".
Definition mtls_certificates := "mTLS Certificates".
Definition workflows := "Workflows".
Definition pipelines := "Pipelines".
Definition secrets_store_secrets := "Secrets Store Secrets".
Definition assets := "Assets".
End friendlyBindingNames.

(** ** The state of a run *)

Inductive LogEvent : Type :=
| Log (message : string)        (* logger.log *)
| OnceLog (message : string)    (* logger.once.log *)
| OnceInfo (message : string).  (* logger.once.info *)

(** [output] and [hasConnectionStatus] are the local variables of
    [printBindings]; [logged] is what was handed to the logger, oldest
    first; [registryReads] records the service names looked up in
    [context.registry], oldest first. *)
Record PrintState : Type := {
  output : list DisplayGroup;
  hasConnectionStatus : bool;
  registryReads : list string;
  logged : list LogEvent;
}.

Definition initialState : PrintState :=
  {| output := []; hasConnectionStatus := false; registryReads := []; logged := [] |}.

Definition M (A : Type) : Type := PrintState -> A * PrintState.

Definition ret {A} (a : A) : M A := fun st => (a, st).

Definition bind {A B} (m : M A) (k : A -> M B) : M B :=
  fun st => let (a, st') := m st in k a st'.

Notation "x <- m ;; k" := (bind m (fun x => k))
  (at level 100, m at next level, right associativity).
Notation "m ;; k" := (bind m (fun _ => k))
  (at level 100, right associativity).

(** [if (c) { m }] *)
Definition when (c : bool) (m : M unit) : M unit :=
  if c then m else ret tt.

(** [l.map(f)] for a callback with effects: left to right. *)
Fixpoint mapM {A B} (f : A -> M B) (l : list A) : M (list B) :=
  match l with
  | [] => ret []
  | x :: rest =>
      y <- f x ;;
      ys <- mapM f rest ;;
      ret (y :: ys)
  end.

(** [output.push(group)] *)
Definition push (group : DisplayGroup) : M unit :=
  fun st =>
    (tt, {| output := output st ++ [group];
            hasConnectionStatus := hasConnectionStatus st;
            registryReads := registryReads st;
            logged := logged st |}).

(** [hasConnectionStatus = true] *)
Definition setHasConnectionStatus : M unit :=
  fun st =>
    (tt, {| output := output st;
            hasConnectionStatus := true;
            registryReads := registryReads st;
            logged := logged st |}).

Definition emit (e : LogEvent) : M unit :=
  fun st =>
    (tt, {| output := output st;
            hasConnectionStatus := hasConnectionStatus st;
            registryReads := registryReads st;
            logged := logged st ++ [e] |}).

Definition getOutput : M (list DisplayGroup) := fun st => (output st, st).
Definition getHasConnectionStatus : M bool := fun st => (hasConnectionStatus st, st).

(** [context.registry !== null] *)
Definition registry_not_null (context : Context) : bool :=
  match registry context with
  | Null => false
  | _ => true
  end.

(** The names of the members of [Object.prototype]. Property access
    on a plain object finds them on every object: [({})["constructor"]]
    is the function [Object]. *)
Definition Object_prototype_keys : list string :=
  [ "constructor"; "__defineGetter__"; "__defineSetter__"; "hasOwnProperty";
    "__lookupGetter__"; "__lookupSetter__"; "isPrototypeOf";
    "propertyIsEnumerable"; "toString"; "valueOf"; "__proto__";
    "toLocaleString" ].

(** What [obj[key]] evaluates to: the value of an own property, a
    member inherited from [Object.prototype], or [undefined]. *)
Inductive PropertyValue (A : Type) : Type :=
| OwnProperty (a : A)
| InheritedProperty
| NoProperty.
Arguments OwnProperty {A} a.
Arguments InheritedProperty {A}.
Arguments NoProperty {A}.

(** [obj[key]] for a plain object with the own properties [obj]. *)
Definition get_property {A} (obj : gmap string A) (key : string) : PropertyValue A :=
  match obj !! key with
  | Some a => OwnProperty a
  | None =>
      if existsb (String.eqb key) Object_prototype_keys
      then InheritedProperty
      else NoProperty
  end.

(** [!!obj[key]]: an object and an inherited member are truthy. *)
Definition truthy_property {A} (v : PropertyValue A) : bool :=
  match v with
  | OwnProperty _ => true
  | InheritedProperty => true
  | NoProperty => false
  end.

(** [context.registry?.[service]]: [undefined] when the registry is
    missing, else the property [service] of the registry. *)
Definition readRegistry (context : Context) (service : string)
    : M (PropertyValue WorkerDefinition) :=
  fun st =>
    (match registry context with
     | Defined r => get_property r service
     | _ => NoProperty
     end,
     {| output := output st;
        hasConnectionStatus := hasConnectionStatus st;
        registryReads := registryReads st ++ [service];
        logged := logged st |}).

(** ** [printBindings] *)

Definition NL : string := String (ascii_of_nat 10) EmptyString.
Definition DQUOTE : string := String (ascii_of_nat 34) EmptyString.

(** [l.length > 0] *)
Definition nonempty {A} (l : list A) : bool := Nat.ltb 0 (length l).

(** A [string | undefined] handed to [addSuffix]. *)
Definition of_ostring (o : option string) : JsValue :=
  match o with
  | Some s => JsString s
  | None => JsUndefined
  end.

Section PrintBindings.
Context `{Builtins}.
Variable env : Env.
Variable bindings : Bindings.
Variable tailConsumers : list CfTailConsumer.
Variable context : Context.

Definition addSuffix : JsValue -> option bool -> string :=
  createAddSuffix (provisioning context) (local context).

Definition truncate (item : string + Json) : string :=
  let s := match item with
           | inl s => s
           | inr j => JSON_stringify j
           end in
  let maxLength := 40 in
  if Nat.ltb (String.length s) maxLength then s
  else substring 0 (maxLength - 3) s +:+ "...".

Definition data_blobs_group : M unit :=
  match data_blobs bindings with
  | Some blobs =>
      when (nonempty blobs)
        (push {| group_name := friendlyBindingNames.data_blobs;
                 entries := map (fun '(key, value) =>
                   {| key := key;
                      value := match value with
                               | BlobString s => truncate (inl s)
                               | BlobBinary => "<Buffer>"
                               end |}) blobs |})
  | None => ret tt
  end.

(** The [&&] of the condition on [registryDefinition] of a durable
    object binding. On a member inherited from [Object.prototype] the
    source calls [some] on the missing [durableObjects] of that member
    and throws a [TypeError]: the call of [printBindings] then returns
    nothing. The embedding describes the calls that return; on such a
    member it takes the condition as false. *)
Definition durable_object_defined (registryDefinition : PropertyValue WorkerDefinition)
    (class_name : string) : bool :=
  match registryDefinition with
  | OwnProperty d =>
      existsb (fun d => String.eqb (className d) class_name) (durableObjects d)
  | InheritedProperty => false
  | NoProperty => false
  end.

Definition durable_object_entry (b : CfDurableObject) : M DisplayEntry :=
  let value := do_class_name b in
  value <-
    (if truthy_ostring (do_script_name b) then
       let script_name := default EmptyString (do_script_name b) in
       if truthy_obool (local context) && registry_not_null context then
         registryDefinition <- readRegistry context script_name ;;
         setHasConnectionStatus ;;
         if durable_object_defined registryDefinition (do_class_name b)
         then ret (value +:+ " (defined in " +:+ script_name +:+ " "
                     +:+ chalk_green env "[connected]" +:+ ")")
         else ret (value +:+ " (defined in " +:+ script_name +:+ " "
                     +:+ chalk_red env "[not connected]" +:+ ")")
       else ret (value +:+ " (defined in " +:+ script_name +:+ ")")
     else ret value) ;;
  ret {| key := do_name b; value := value |}.

Definition durable_objects_group : M unit :=
  match durable_objects bindings with
  | Some dos =>
      when (nonempty dos)
        (entries <- mapM durable_object_entry dos ;;
         push {| group_name := friendlyBindingNames.durable_objects;
                 entries := entries |})
  | None => ret tt
  end.

Definition workflows_group : M unit :=
  match workflows bindings with
  | Some ws =>
      when (nonempty ws)
        (push {| group_name := friendlyBindingNames.workflows;
                 entries := map (fun w =>
                   let value := wf_class_name w in
                   let value :=
                     if truthy_ostring (wf_script_name w)
                     then value +:+ " (defined in "
                            +:+ default EmptyString (wf_script_name w) +:+ ")"
                     else value in
                   {| key := wf_binding w;
                      value := if truthy_ostring (wf_script_name w) then value
                               else addSuffix (JsString value)
                                      (Some (negb (truthy_obool (wf_remote w)))) |}) ws |})
  | None => ret tt
  end.

Definition kv_namespaces_group : M unit :=
  match kv_namespaces bindings with
  | Some kvs =>
      when (nonempty kvs)
        (push {| group_name := friendlyBindingNames.kv_namespaces;
                 entries := map (fun kv =>
                   {| key := kv_binding kv;
                      value := addSuffix (kv_id kv)
                                 (Some (negb (truthy_obool (kv_remote kv)))) |}) kvs |})
  | None => ret tt
  end.

(** [a || b || "unrestricted"] on possibly missing strings. *)
Definition send_email_destination (emailBinding : CfSendEmailBindings) : string :=
  let destination_address := email_destination_address emailBinding in
  let allowed_destination_addresses := email_allowed_destination_addresses emailBinding in
  if truthy_ostring destination_address then default EmptyString destination_address
  else
    let joined := option_map (join ", ") allowed_destination_addresses in
    if truthy_ostring joined then default EmptyString joined
    else "unrestricted".

Definition send_email_group : M unit :=
  match send_email bindings with
  | Some es =>
      when (nonempty es)
        (push {| group_name := friendlyBindingNames.send_email;
                 entries := map (fun emailBinding =>
                   {| key := email_name emailBinding;
                      value := addSuffix (JsString (send_email_destination emailBinding))
                                 (Some true) |}) es |})
  | None => ret tt
  end.

Definition queues_group : M unit :=
  match queues bindings with
  | Some qs =>
      when (nonempty qs)
        (push {| group_name := friendlyBindingNames.queues;
                 entries := map (fun q =>
                   {| key := queue_binding q;
                      value := addSuffix (JsString (queue_name q))
                                 (Some (negb (truthy_obool (queue_remote q)))) |}) qs |})
  | None => ret tt
  end.

(** The text of a D1 database before [addSuffix]. *)
Definition d1_database_value (d : CfD1Database) : option string :=
  let database_id := d1_database_id d in
  let database_name := d1_database_name d in
  let preview_database_id := d1_preview_database_id d in
  let remoteDatabaseId : option string :=
    match database_id with
    | JsString s => Some s
    | _ => None
    end in
  let databaseValue : option string :=
    if truthy_ostring remoteDatabaseId && truthy_ostring database_name
    then Some (default EmptyString database_name +:+ " ("
                 +:+ default EmptyString remoteDatabaseId +:+ ")")
    else match remoteDatabaseId with
         | Some r => Some r
         | None => database_name
         end in
  if truthy_ostring preview_database_id
     && negb (match database_id with
              | JsString s => String.eqb s "local"
              | _ => false
              end)
  then Some ((if truthy_ostring databaseValue
              then default EmptyString databaseValue +:+ ", "
              else EmptyString)
             +:+ "Preview: (" +:+ default EmptyString preview_database_id +:+ ")")
  else databaseValue.

Definition d1_databases_group : M unit :=
  match d1_databases bindings with
  | Some ds =>
      when (nonempty ds)
        (push {| group_name := friendlyBindingNames.d1_databases;
                 entries := map (fun d =>
                   {| key := d1_binding d;
                      value := addSuffix (of_ostring (d1_database_value d))
                                 (Some (negb (truthy_obool (d1_remote d)))) |}) ds |})
  | None => ret tt
  end.

Definition vectorize_group : M unit :=
  match vectorize bindings with
  | Some vs =>
      when (nonempty vs)
        (push {| group_name := friendlyBindingNames.vectorize;
                 entries := map (fun v =>
                   {| key := vectorize_binding v;
                      value := addSuffix (JsString (vectorize_index_name v)) None |}) vs |})
  | None => ret tt
  end.

Definition hyperdrive_group : M unit :=
  match hyperdrive bindings with
  | Some hs =>
      when (nonempty hs)
        (push {| group_name := friendlyBindingNames.hyperdrive;
                 entries := map (fun h =>
                   {| key := hyperdrive_binding h;
                      value := addSuffix (JsString (hyperdrive_id h)) (Some true) |}) hs |})
  | None => ret tt
  end.

Definition r2_buckets_group : M unit :=
  match r2_buckets bindings with
  | Some rs =>
      when (nonempty rs)
        (push {| group_name := friendlyBindingNames.r2_buckets;
                 entries := map (fun r =>
                   let name := match r2_bucket_name r with
                               | JsString s => s
                               | _ => EmptyString
                               end in
                   let name := match r2_jurisdiction r with
                               | Some jurisdiction => name +:+ " (" +:+ jurisdiction +:+ ")"
                               | None => name
                               end in
                   {| key := r2_binding r;
                      value := addSuffix (JsString name)
                                 (Some (negb (truthy_obool (r2_remote r)))) |}) rs |})
  | None => ret tt
  end.

Definition logfwdr_group : M unit :=
  match logfwdr bindings with
  | Some ls =>
      when (nonempty ls)
        (push {| group_name := friendlyBindingNames.logfwdr;
                 entries := map (fun binding =>
                   {| key := logfwdr_name binding;
                      value := addSuffix (JsString (logfwdr_destination binding)) None |}) ls |})
  | None => ret tt
  end.

Definition secrets_store_secrets_group : M unit :=
  match secrets_store_secrets bindings with
  | Some ss =>
      when (nonempty ss)
        (push {| group_name := friendlyBindingNames.secrets_store_secrets;
                 entries := map (fun s =>
                   {| key := secret_binding s;
                      value := addSuffix
                                 (JsString (secret_store_id s +:+ "/" +:+ secret_name s))
                                 (Some true) |}) ss |})
  | None => ret tt
  end.

(** The condition on [registryDefinition] of a service binding. A
    member inherited from [Object.prototype] is truthy and has no
    [entrypointAddresses]. *)
Definition service_defined (registryDefinition : PropertyValue WorkerDefinition)
    (entrypoint : option string) : bool :=
  match registryDefinition with
  | OwnProperty d =>
      negb (truthy_ostring entrypoint)
      || truthy_property
           (match entrypointAddresses d with
            | Some addresses => get_property addresses (default EmptyString entrypoint)
            | None => NoProperty
            end)
  | InheritedProperty => negb (truthy_ostring entrypoint) || false
  | NoProperty => false
  end.

Definition service_entry (b : CfService) : M DisplayEntry :=
  let service := service_service b in
  let entrypoint := service_entrypoint b in
  let value := service in
  let value :=
    if truthy_ostring entrypoint
    then value +:+ "#" +:+ default EmptyString entrypoint
    else value in
  value <-
    (if truthy_obool (service_remote b) then
       ret (addSuffix (JsString value) (Some false))
     else if truthy_obool (local context) && registry_not_null context then
       registryDefinition <- readRegistry context service ;;
       setHasConnectionStatus ;;
       if service_defined registryDefinition entrypoint then
         if MIXED_MODE env
         then ret (value +:+ " " +:+ chalk_green env "[connected to local resource]")
         else ret (value +:+ " " +:+ chalk_green env "[connected]")
       else ret (value +:+ " " +:+ chalk_red env "[not connected]")
     else ret value) ;;
  ret {| key := service_binding b; value := value |}.

Definition services_group : M unit :=
  match services bindings with
  | Some ss =>
      when (nonempty ss)
        (entries <- mapM service_entry ss ;;
         push {| group_name := friendlyBindingNames.services;
                 entries := entries |})
  | None => ret tt
  end.

Definition analytics_engine_datasets_group : M unit :=
  match analytics_engine_datasets bindings with
  | Some ds =>
      when (nonempty ds)
        (push {| group_name := friendlyBindingNames.analytics_engine_datasets;
                 entries := map (fun d =>
                   {| key := ae_binding d;
                      value := addSuffix
                                 (JsString (default (ae_binding d) (ae_dataset d)))
                                 (Some true) |}) ds |})
  | None => ret tt
  end.

Definition text_blobs_group : M unit :=
  match text_blobs bindings with
  | Some blobs =>
      when (nonempty blobs)
        (push {| group_name := friendlyBindingNames.text_blobs;
                 entries := map (fun '(key, value) =>
                   {| key := key;
                      value := addSuffix (JsString (truncate (inl value))) None |}) blobs |})
  | None => ret tt
  end.

Definition browser_group : M unit :=
  match browser bindings with
  | Some binding =>
      push {| group_name := friendlyBindingNames.browser;
              entries := [ {| key := "Name"; value := binding |} ] |}
  | None => ret tt
  end.

Definition images_group : M unit :=
  match images bindings with
  | Some binding =>
      let addImagesSuffix :=
        createAddSuffix (provisioning context)
          (Some (truthy_obool (imagesLocalMode context))) in
      push {| group_name := friendlyBindingNames.images;
              entries := [ {| key := "Name";
                              value := addImagesSuffix (JsString binding) None |} ] |}
  | None => ret tt
  end.

Definition ai_group : M unit :=
  match ai bindings with
  | Some a =>
      let entries := [ {| key := "Name";
                          value := addSuffix (JsString (ai_binding a)) None |} ] in
      let entries :=
        if truthy_obool (ai_staging a)
        then entries ++ [ {| key := "Staging";
                             value := addSuffix (JsString "true") (Some false) |} ]
        else entries in
      push {| group_name := friendlyBindingNames.ai; entries := entries |}
  | None => ret tt
  end.

Definition pipelines_group : M unit :=
  match pipelines bindings with
  | Some ps =>
      when (negb (Nat.eqb (length ps) 0))
        (push {| group_name := friendlyBindingNames.pipelines;
                 entries := map (fun p =>
                   {| key := pipeline_binding p;
                      value := addSuffix (JsString (pipeline_pipeline p)) None |}) ps |})
  | None => ret tt
  end.

Definition assets_group : M unit :=
  match assets bindings with
  | Some binding =>
      push {| group_name := friendlyBindingNames.assets;
              entries := [ {| key := "Binding"; value := binding |} ] |}
  | None => ret tt
  end.

Definition version_metadata_group : M unit :=
  match version_metadata bindings with
  | Some binding =>
      push {| group_name := friendlyBindingNames.version_metadata;
              entries := [ {| key := "Name";
                              value := addSuffix (JsString binding) None |} ] |}
  | None => ret tt
  end.

(** [unsafe?.bindings] *)
Definition unsafe_bindings_of : option (list CfUnsafeBinding) :=
  match unsafe bindings with
  | Some u => unsafe_bindings u
  | None => None
  end.

(** [unsafe?.metadata] *)
Definition unsafe_metadata_of : option (list (string * Json)) :=
  match unsafe bindings with
  | Some u => unsafe_metadata u
  | None => None
  end.

Definition unsafe_bindings_entries (bs : list CfUnsafeBinding) : list DisplayEntry :=
  map (fun b => {| key := unsafe_type b;
                   value := addSuffix (JsString (unsafe_name b)) None |}) bs.

Definition unsafe_bindings_group : M unit :=
  match unsafe_bindings_of with
  | Some bs =>
      when (nonempty bs)
        (push {| group_name := friendlyBindingNames.unsafe;
                 entries := unsafe_bindings_entries bs |})
  | None => ret tt
  end.

Definition vars_entries (vs : list (string * VarValue)) : list DisplayEntry :=
  map (fun '(key, value) =>
    let parsedValue :=
      match value with
      | VarString s => DQUOTE +:+ truncate (inl s) +:+ DQUOTE
      | VarObject j => JSON_stringify_indent j
      | VarPrimitive p => truncate (inl (String_of p))
      end in
    {| key := key; value := parsedValue |}) vs.

Definition vars_group : M unit :=
  match vars bindings with
  | Some vs =>
      when (nonempty vs)
        (push {| group_name := friendlyBindingNames.vars;
                 entries := vars_entries vs |})
  | None => ret tt
  end.

Definition wasm_modules_group : M unit :=
  match wasm_modules bindings with
  | Some ms =>
      when (nonempty ms)
        (push {| group_name := friendlyBindingNames.wasm_modules;
                 entries := map (fun '(key, value) =>
                   {| key := key;
                      value := addSuffix
                                 (JsString (match value with
                                            | BlobString s => truncate (inl s)
                                            | BlobBinary => "<Wasm>"
                                            end)) None |}) ms |})
  | None => ret tt
  end.

Definition dispatch_namespaces_group : M unit :=
  match dispatch_namespaces bindings with
  | Some ds =>
      when (nonempty ds)
        (push {| group_name := friendlyBindingNames.dispatch_namespaces;
                 entries := map (fun d =>
                   {| key := dispatch_binding d;
                      value := addSuffix
                                 (JsString
                                    (match dispatch_outbound d with
                                     | Some outbound =>
                                         dispatch_namespace d +:+ " (outbound -> "
                                           +:+ outbound_service outbound +:+ ")"
                                     | None => dispatch_namespace d
                                     end)) None |}) ds |})
  | None => ret tt
  end.

Definition mtls_certificates_group : M unit :=
  match mtls_certificates bindings with
  | Some cs =>
      when (nonempty cs)
        (push {| group_name := friendlyBindingNames.mtls_certificates;
                 entries := map (fun c =>
                   {| key := mtls_binding c;
                      value := addSuffix (JsString (mtls_certificate_id c)) None |}) cs |})
  | None => ret tt
  end.

Definition unsafe_metadata_entries (metadata : list (string * Json)) : list DisplayEntry :=
  map (fun '(key, value) =>
    {| key := key; value := addSuffix (JsString (JSON_stringify value)) None |}) metadata.

Definition unsafe_metadata_group : M unit :=
  match unsafe_metadata_of with
  | Some metadata =>
      push {| group_name := friendlyBindingNames.unsafe;
              entries := unsafe_metadata_entries metadata |}
  | None => ret tt
  end.

(** [context.name && getFlag("MULTIWORKER")] *)
Definition named_multiworker : bool :=
  truthy_ostring (name context) && MULTIWORKER env.

Definition simulated_locally_notice : string :=
  "Your Worker and resources are simulated locally via Miniflare. For more information, see: https://developers.cloudflare.com/workers/testing/local-development."
  +:+ NL.

(** One line of the inventory per group, then one per entry. *)
Definition group_lines (bindingGroup : DisplayGroup) : list string :=
  ("- " +:+ group_name bindingGroup +:+ ":")
  :: map (fun e =>
            "  - " +:+ key e
            +:+ (if truthy_string (value e) then ":" else EmptyString)
            +:+ " " +:+ value e)
         (entries bindingGroup).

Definition log_bindings : M unit :=
  output <- getOutput ;;
  if Nat.eqb (length output) 0 then
    if named_multiworker
    then emit (Log ("No bindings found for "
                      +:+ chalk_blue env (default EmptyString (name context))))
    else emit (Log "No bindings found.")
  else
    when (truthy_obool (local context)) (emit (OnceLog simulated_locally_notice)) ;;
    let title :=
      if truthy_obool (provisioning context)
      then "The following bindings need to be provisioned:"
      else if named_multiworker
      then chalk_blue env (default EmptyString (name context))
             +:+ " has access to the following bindings:"
      else "Your Worker has access to the following bindings:" in
    let message := join NL (title :: concat (map group_lines output)) in
    emit (Log message).

Definition tail_consumer_line (t : CfTailConsumer) : M string :=
  let service := tail_service t in
  if truthy_obool (local context) && registry_not_null context then
    registryDefinition <- readRegistry context service ;;
    setHasConnectionStatus ;;
    if truthy_property registryDefinition
    then ret ("- " +:+ service +:+ " " +:+ chalk_green env "[connected]")
    else ret ("- " +:+ service +:+ " " +:+ chalk_red env "[not connected]")
  else ret ("- " +:+ service).

Definition log_tail_consumers : M unit :=
  let title :=
    if named_multiworker
    then chalk_blue env (default EmptyString (name context))
           +:+ " is sending Tail events to the following Workers:"
    else "Your Worker is sending Tail events to the following Workers:" in
  when (nonempty tailConsumers)
    (lines <- mapM tail_consumer_line tailConsumers ;;
     emit (Log (title +:+ NL +:+ join NL lines))).

Definition connection_status_footnote : string :=
  NL +:+ "Service bindings, Durable Object bindings, and Tail consumers connect to other `wrangler dev` processes running locally, with their connection status indicated by "
  +:+ chalk_green env "[connected]" +:+ " or " +:+ chalk_red env "[not connected]"
  +:+ ". For more details, refer to https://developers.cloudflare.com/workers/runtime-apis/bindings/service-bindings/#local-development"
  +:+ NL.

Definition log_footnote : M unit :=
  hasConnectionStatus <- getHasConnectionStatus ;;
  when hasConnectionStatus (emit (OnceInfo connection_status_footnote)).

(** The body of [printBindings], one step per [if] block of the
    source, in source order. *)
Definition printBindings_body : M unit :=
  data_blobs_group ;;
  durable_objects_group ;;
  workflows_group ;;
  kv_namespaces_group ;;
  send_email_group ;;
  queues_group ;;
  d1_databases_group ;;
  vectorize_group ;;
  hyperdrive_group ;;
  r2_buckets_group ;;
  logfwdr_group ;;
  secrets_store_secrets_group ;;
  services_group ;;
  analytics_engine_datasets_group ;;
  text_blobs_group ;;
  browser_group ;;
  images_group ;;
  ai_group ;;
  pipelines_group ;;
  assets_group ;;
  version_metadata_group ;;
  unsafe_bindings_group ;;
  vars_group ;;
  wasm_modules_group ;;
  dispatch_namespaces_group ;;
  mtls_certificates_group ;;
  unsafe_metadata_group ;;
  log_bindings ;;
  log_tail_consumers ;;
  log_footnote.

(** A call of [printBindings]: the final values of its local
    variables and what it logged. *)
Definition printBindings : PrintState :=
  snd (printBindings_body initialState).

End PrintBindings.

(** ** Connectivity verdicts and their rendering *)

Inductive ConnectivityVerdict : Type :=
| Connected
| NotConnected
| Unknown.

(** The three shapes of the value of a durable object binding defined
    in another script: the branches of [durable_object_entry]. *)
Definition durable_object_value (env : Env) (class_name script_name : string)
    (verdict : ConnectivityVerdict) : string :=
  match verdict with
  | Connected =>
      class_name +:+ " (defined in " +:+ script_name +:+ " "
        +:+ chalk_green env "[connected]" +:+ ")"
  | NotConnected =>
      class_name +:+ " (defined in " +:+ script_name +:+ " "
        +:+ chalk_red env "[not connected]" +:+ ")"
  | Unknown => class_name +:+ " (defined in " +:+ script_name +:+ ")"
  end.

(** [service] or [service#entrypoint]: the value of a service binding
    before any marker. *)
Definition service_base (b : CfService) : string :=
  if truthy_ostring (service_entrypoint b)
  then service_service b +:+ "#" +:+ default EmptyString (service_entrypoint b)
  else service_service b.

(** The three shapes of the value of a service binding that is not
    remote: the branches of [service_entry]. *)
Definition service_value (env : Env) (base : string)
    (verdict : ConnectivityVerdict) : string :=
  match verdict with
  | Connected =>
      if MIXED_MODE env
      then base +:+ " " +:+ chalk_green env "[connected to local resource]"
      else base +:+ " " +:+ chalk_green env "[connected]"
  | NotConnected => base +:+ " " +:+ chalk_red env "[not connected]"
  | Unknown => base
  end.

(** What [context.registry?.[service]] evaluates to. *)
Definition registry_lookup (context : Context) (service : string)
    : PropertyValue WorkerDefinition :=
  match registry context with
  | Defined r => get_property r service
  | _ => NoProperty
  end.

(** The entry of the registry for [service], when the registry has
    one. *)
Definition registry_entry (context : Context) (service : string)
    : option WorkerDefinition :=
  match registry context with
  | Defined r => r !! service
  | _ => None
  end.

(** [obj[key]] is not [undefined]: [key] is an own property of [obj] or
    the name of a member of [Object.prototype]. *)
Definition has_property {A} (obj : gmap string A) (key : string) : Prop :=
  is_Some (obj !! key) \/ In key Object_prototype_keys.

(** ** Reasoning about runs *)

(** The state after running [m]. *)
Definition exec {A} (m : M A) (st : PrintState) : PrintState := snd (m st).

(** [m] keeps the property [P] of the state. *)
Definition preserves {A} (P : PrintState -> Prop) (m : M A) : Prop :=
  forall st, P st -> P (exec m st).

(** A property of the flag and of the registry reads only. *)
Definition on_status (Q : bool -> list string -> Prop) (st : PrintState) : Prop :=
  Q (hasConnectionStatus st) (registryReads st).

(** The flag is set exactly when the registry has been read. *)
Definition status_tracks_reads : PrintState -> Prop :=
  on_status (fun flag reads => reads <> [] <-> flag = true).

(** The flag is up. *)
Definition status_set : PrintState -> Prop :=
  on_status (fun flag _ => flag = true).

(** Nothing was read and the flag is down. *)
Definition status_untouched : PrintState -> Prop :=
  on_status (fun flag reads => reads = [] /\ flag = false).

(** [output] starts with the groups [pre]. *)
Definition has_prefix (pre : list DisplayGroup) (st : PrintState) : Prop :=
  exists groups, output st = pre ++ groups.

(** [m] only appends to [output]. *)
Definition appends {A} (m : M A) : Prop :=
  forall st, exists groups, output (exec m st) = output st ++ groups.

(** [m] appends exactly [groups] to [output]. *)
Definition emits {A} (m : M A) (groups : list DisplayGroup) : Prop :=
  forall st, output (exec m st) = output st ++ groups.

(** Every group has at least one entry. *)
Definition groups_populated (st : PrintState) : Prop :=
  Forall (fun g => entries g <> []) (output st).

(** ** Sample inputs *)

(** A JSON value given by its two serialisations, and booleans as the
    primitives: the built-ins used by the examples. *)
Record TextJson : Type := { compact : string; indented : string }.

#[export] Instance text_builtins : Builtins := {|
  Json := TextJson;
  Primitive := bool;
  JSON_stringify := compact;
  JSON_stringify_indent := indented;
  String_of := fun b : bool => if b then "true" else "false";
|}.

Definition plain_env : Env :=
  {| colorEnabled := false; MIXED_MODE := false; MULTIWORKER := false |}.

Definition color_env : Env :=
  {| colorEnabled := true; MIXED_MODE := false; MULTIWORKER := false |}.

(** [{ local: true, registry }] *)
Definition local_context (r : Nullable WorkerRegistry) : Context :=
  {| registry := r; local := Some true; imagesLocalMode := None;
     name := None; provisioning := None |}.


(** Bindings with at most the five kinds given, every other kind
    missing. *)
Definition sample_bindings
    (durable_objects : option (list CfDurableObject))
    (kv_namespaces : option (list CfKvNamespace))
    (images : option string)
    (unsafe : option CfUnsafe)
    (vars : option (list (string * VarValue))) : Bindings :=
  {| data_blobs := None; durable_objects := durable_objects; workflows := None;
     kv_namespaces := kv_namespaces; send_email := None; queues := None;
     d1_databases := None; vectorize := None; hyperdrive := None;
     r2_buckets := None; logfwdr := None; secrets_store_secrets := None;
     services := None; analytics_engine_datasets := None; text_blobs := None;
     browser := None; images := images; ai := None; version_metadata := None;
     unsafe := unsafe; vars := vars; wasm_modules := None;
     dispatch_namespaces := None; mtls_certificates := None;
     pipelines := None; assets := None |}.

(** The durable object binding and the registry of the scenario:
    class [Counter] defined in [other-service]. *)
Definition counter_binding : CfDurableObject :=
  {| do_name := "COUNTER"; do_class_name := "Counter";
     do_script_name := Some "other-service" |}.

Definition counter_definition : WorkerDefinition :=
  {| durableObjects := [ {| className := "Counter" |} ];
     entrypointAddresses := None |}.

Definition counter_registry : WorkerRegistry :=
  {[ "other-service" := counter_definition ]}.

(** [{ durable_objects: { bindings: [counter_binding] } }] *)
Definition counter_bindings : Bindings :=
  sample_bindings (Some [ counter_binding ]) None None None None.

(** [{ binding: "AUTH", service: "auth", entrypoint: "Admin" }] *)
Definition auth_binding : CfService :=
  {| service_binding := "AUTH"; service_service := "auth";
     service_entrypoint := Some "Admin"; service_remote := None |}.

Definition auth_address : Address := {| host := "127.0.0.1"; port := 8787%N |}.

Definition auth_definition : WorkerDefinition :=
  {| durableObjects := [];
     entrypointAddresses := Some {[ "Admin" := auth_address ]} |}.

Definition auth_registry : WorkerRegistry := {[ "auth" := auth_definition ]}.


(** [{ unsafe: { metadata: {} } }] *)
Definition empty_metadata_bindings : Bindings :=
  sample_bindings None None None
    (Some {| unsafe_bindings := None; unsafe_metadata := Some [] |}) None.

(** [{ unsafe: { bindings: [{ name: "my-binding", type: "custom" }],
                 metadata: { retries: 3 } },
       vars: { FOO: "bar" } }] *)
Definition unsafe_bindings_sample : Bindings :=
  sample_bindings None None None
    (Some {| unsafe_bindings :=
               Some [ {| unsafe_name := "my-binding"; unsafe_type := "custom" |} ];
             unsafe_metadata :=
               Some [ ("retries", {| compact := "3"; indented := "3" |}) ] |})
    (Some [ ("FOO", VarString "bar") ]).

(** [{ vars: { FOO: "bar" } }] *)
Definition foo_bindings : Bindings :=
  sample_bindings None None None None (Some [ ("FOO", VarString "bar") ]).

(** [{ kv_namespaces: [{ binding: "KV", id: "kv-id", remote: false }] }] *)
Definition kv_bindings : Bindings :=
  sample_bindings None
    (Some [ {| kv_binding := "KV"; kv_id := JsString "kv-id";
               kv_remote := Some false |} ])
    None None None.

(** [{ binding: "DB", database_name: "db", database_id: "abc",
       preview_database_id: "xyz" }] *)
Definition preview_database : CfD1Database :=
  {| d1_binding := "DB"; d1_database_name := Some "db";
     d1_database_id := JsString "abc"; d1_preview_database_id := Some "xyz";
     d1_remote := None |}.

(** ** What a run is expected to read and to emit *)

(** The guard of every registry lookup:
    [context.local && context.registry !== null]. *)
Definition resolves_connections (context : Context) : bool :=
  truthy_obool (local context) && registry_not_null context.

(** The scripts of the durable object bindings that name one, in
    order. *)
Definition durable_object_scripts (dos : list CfDurableObject) : list string :=
  map (fun b => default EmptyString (do_script_name b))
      (List.filter (fun b => truthy_ostring (do_script_name b)) dos).

(** The services of the service bindings that are not remote, in
    order. *)
Definition local_services (ss : list CfService) : list string :=
  map service_service
      (List.filter (fun b => negb (truthy_obool (service_remote b))) ss).

(** The names of the services a run looks up in the registry, in the
    order of the lookups. *)
Definition expected_reads `{Builtins} (bindings : Bindings)
    (tailConsumers : list CfTailConsumer) (context : Context) : list string :=
  if resolves_connections context
  then durable_object_scripts (default [] (durable_objects bindings))
       ++ local_services (default [] (services bindings))
       ++ map tail_service tailConsumers
  else [].

(** The group names in the order of the steps of [printBindings]. *)
Definition group_order : list string :=
  [ friendlyBindingNames.data_blobs; friendlyBindingNames.durable_objects;
    friendlyBindingNames.workflows; friendlyBindingNames.kv_namespaces;
    friendlyBindingNames.send_email; friendlyBindingNames.queues;
    friendlyBindingNames.d1_databases; friendlyBindingNames.vectorize;
    friendlyBindingNames.hyperdrive; friendlyBindingNames.r2_buckets;
    friendlyBindingNames.logfwdr; friendlyBindingNames.secrets_store_secrets;
    friendlyBindingNames.services;
    friendlyBindingNames.analytics_engine_datasets;
    friendlyBindingNames.text_blobs; friendlyBindingNames.browser;
    friendlyBindingNames.images; friendlyBindingNames.ai;
    friendlyBindingNames.pipelines; friendlyBindingNames.assets;
    friendlyBindingNames.version_metadata; friendlyBindingNames.unsafe;
    friendlyBindingNames.vars; friendlyBindingNames.wasm_modules;
    friendlyBindingNames.dispatch_namespaces;
    friendlyBindingNames.mtls_certificates; friendlyBindingNames.unsafe ].

(** [m] pushes nothing, or one group named [expected]. *)
Definition emits_at_most {A} (m : M A) (expected : string) : Prop :=
  forall st, exists groups,
    output (exec m st) = output st ++ groups
    /\ sublist (map group_name groups) [expected].

(** The registry reads are [reads]. *)
Definition reads_are (reads : list string) : PrintState -> Prop :=
  on_status (fun _ current => current = reads).

(** What was logged is [events]. *)
Definition logged_is (events : list LogEvent) (st : PrintState) : Prop :=
  logged st = events.

(** The title of the inventory. *)
Definition inventory_title (env : Env) (context : Context) : string :=
  if truthy_obool (provisioning context)
  then "The following bindings need to be provisioned:"
  else if named_multiworker env context
  then chalk_blue env (default EmptyString (name context))
         +:+ " has access to the following bindings:"
  else "Your Worker has access to the following bindings:".

(** What is logged for the groups [groups]: one line when there is
    none, else the inventory, after the notice in local mode. *)
Definition inventory_events (env : Env) (context : Context)
    (groups : list DisplayGroup) : list LogEvent :=
  match groups with
  | [] =>
      [ Log (if named_multiworker env context
             then "No bindings found for "
                    +:+ chalk_blue env (default EmptyString (name context))
             else "No bindings found.") ]
  | _ :: _ =>
      (if truthy_obool (local context)
       then [ OnceLog simulated_locally_notice ]
       else [])
      ++ [ Log (join NL (inventory_title env context
                           :: concat (map group_lines groups))) ]
  end.

(** [{ name: "ALERTS" }]: a send-email binding without addresses. *)
Definition unrestricted_email : CfSendEmailBindings :=
  {| email_name := "ALERTS"; email_destination_address := None;
     email_allowed_destination_addresses := Some [] |}.

(** [{ binding: "DB", database_name: "db", database_id: "local",
       preview_database_id: "xyz" }] *)
Definition local_database : CfD1Database :=
  {| d1_binding := "DB"; d1_database_name := Some "db";
     d1_database_id := JsString "local"; d1_preview_database_id := Some "xyz";
     d1_remote := None |}.

(** [{ service: "auth" }] as a tail consumer. *)
Definition auth_tail : CfTailConsumer := {| tail_service := "auth" |}.

(** [context] with another registry. *)
Definition with_registry (context : Context) (r : Nullable WorkerRegistry) : Context :=
  {| registry := r; local := local context;
     imagesLocalMode := imagesLocalMode context; name := name context;
     provisioning := provisioning context |}.

(** [context] with another name. *)
Definition with_name (context : Context) (n : option string) : Context :=
  {| registry := registry context; local := local context;
     imagesLocalMode := imagesLocalMode context; name := n;
     provisioning := provisioning context |}.

(** [env] with another value of the MULTIWORKER flag. *)
Definition with_MULTIWORKER (env : Env) (flag : bool) : Env :=
  {| colorEnabled := colorEnabled env; MIXED_MODE := MIXED_MODE env;
     MULTIWORKER := flag |}.

(** [{ local: false, registry }] *)
Definition remote_context (r : Nullable WorkerRegistry) : Context :=
  {| registry := r; local := Some false; imagesLocalMode := None;
     name := None; provisioning := None |}.

(** ** Environment variables *)

(** [process.env] *)
Abbreviation ProcessEnv := (gmap string string).

(** The notice that a variable was read under its deprecated name. *)
Record DeprecationNotice : Type := {
  deprecated_name : string;
  canonical_name : string;
}.

(** Modelled from the spec: [getEnvironmentVariableFactory]
    (environment-variables/factory) is outside the sources at hand.
    Given a canonical variable name, an optional deprecated alias and a
    default-value supplier, the getter returns the explicit value if
    set, else the value of the deprecated alias, emitting a one-time
    deprecation notice, else the computed default. The supplier may
    read the environment. [hasWarned] tells whether the getter has
    emitted its notice already; a call returns the value, the notices
    it emits and the new [hasWarned]. *)
Definition getEnvironmentVariableFactory (variableName : string)
    (deprecatedName : option string)
    (defaultValue : option (ProcessEnv -> string))
    (hasWarned : bool) (env : ProcessEnv)
    : option string * list DeprecationNotice * bool :=
  match env !! variableName with
  | Some explicit => (Some explicit, [], hasWarned)
  | None =>
      match deprecatedName with
      | Some alias =>
          match env !! alias with
          | Some value =>
              (Some value,
               if hasWarned then []
               else [ {| deprecated_name := alias;
                         canonical_name := variableName |} ],
               true)
          | None =>
              (option_map (fun supplier => supplier env) defaultValue, [],
               hasWarned)
          end
      | None =>
          (option_map (fun supplier => supplier env) defaultValue, [], hasWarned)
      end
  end.

Definition getCloudflareApiEnvironmentFromEnv
    : bool -> ProcessEnv -> option string * list DeprecationNotice * bool :=
  getEnvironmentVariableFactory "WRANGLER_API_ENVIRONMENT" None
    (Some (fun _ => "production")).

Definition getCloudflareApiBaseUrl
    : bool -> ProcessEnv -> option string * list DeprecationNotice * bool :=
  getEnvironmentVariableFactory "CLOUDFLARE_API_BASE_URL" (Some "CF_API_BASE_URL")
    (Some (fun env =>
             if match fst (fst (getCloudflareApiEnvironmentFromEnv false env)) with
                | Some environment => String.eqb environment "staging"
                | None => false
                end
             then "https://api.staging.cloudflare.com/client/v4"
             else "https://api.cloudflare.com/client/v4")).

(** [{ WRANGLER_API_ENVIRONMENT: "staging" }] *)
Definition staging_env : ProcessEnv := {[ "WRANGLER_API_ENVIRONMENT" := "staging" ]}.




(** [{}] as a registry. *)
Definition empty_registry : WorkerRegistry := ∅.

(** [{ service: "constructor" }] as a tail consumer. *)
Definition constructor_tail : CfTailConsumer := {| tail_service := "constructor" |}.

(** ** Facts about strings *)

Lemma append_nil_l (b : string) : EmptyString +:+ b = b.
Proof. reflexivity. Qed.

Lemma append_cons (c : ascii) (a b : string) : String c a +:+ b = String c (a +:+ b).
Proof. reflexivity. Qed.

Lemma append_assoc (a b c : string) : (a +:+ b) +:+ c = a +:+ b +:+ c.
Proof.
  induction a as [|x a IH].
  - reflexivity.
  - rewrite !append_cons. now rewrite IH.
Qed.

Lemma length_append (a b : string) :
  String.length (a +:+ b) = String.length a + String.length b.
Proof.
  induction a as [|c a IH].
  - reflexivity.
  - rewrite append_cons. cbn [String.length]. now rewrite IH.
Qed.

Lemma substring_0_length (s : string) : substring 0 (String.length s) s = s.
Proof.
  induction s as [|c s IH]; cbn [String.length substring].
  - reflexivity.
  - now rewrite IH.
Qed.

Lemma substring_append_r (a b : string) :
  substring (String.length a) (String.length b) (a +:+ b) = b.
Proof.
  induction a as [|c a IH].
  - rewrite append_nil_l. apply substring_0_length.
  - rewrite append_cons. cbn [String.length substring]. exact IH.
Qed.

Lemma length_substring_0 (m : nat) (s : string) :
  m <= String.length s -> String.length (substring 0 m s) = m.
Proof.
  revert s. induction m as [|m IH]; intros s Hm.
  - destruct s; reflexivity.
  - destruct s as [|c s]; cbn [String.length] in Hm; [lia|].
    cbn [substring String.length]. rewrite IH; [reflexivity | lia].
Qed.

Lemma endsWith_append (a b : string) : endsWith (a +:+ b) b = true.
Proof.
  unfold endsWith. rewrite length_append.
  replace (String.length a + String.length b - String.length b)
    with (String.length a) by lia.
  rewrite substring_append_r, String.eqb_refl, andb_true_r.
  apply Nat.leb_le. lia.
Qed.

Lemma append_nonempty_neq (a b : string) : truthy_string b = true -> a +:+ b <> a.
Proof.
  intros Hb Heq. apply (f_equal String.length) in Heq.
  rewrite length_append in Heq. destruct b; [discriminate|].
  cbn [String.length] in Heq. lia.
Qed.

Lemma append_inj_l (a b c : string) : a +:+ b = a +:+ c -> b = c.
Proof.
  induction a as [|x a IH]; intros Heq.
  - exact Heq.
  - rewrite !append_cons in Heq. injection Heq as Heq. auto.
Qed.

(** ** Facts about property access *)

Lemma prototype_key_In (key : string) :
  existsb (String.eqb key) Object_prototype_keys = true
  <-> In key Object_prototype_keys.
Proof.
  rewrite existsb_exists. split.
  - intros [k [Hin Heq]]. apply String.eqb_eq in Heq. now subst.
  - intros Hin. exists key. split; [exact Hin | apply String.eqb_refl].
Qed.

Lemma get_property_own {A} (obj : gmap string A) (key : string) (a : A) :
  obj !! key = Some a -> get_property obj key = OwnProperty a.
Proof. intros Hlookup. unfold get_property. now rewrite Hlookup. Qed.


Lemma truthy_get_property {A} (obj : gmap string A) (key : string) :
  truthy_property (get_property obj key) = true <-> has_property obj key.
Proof.
  unfold get_property, has_property.
  destruct (obj !! key) as [a|] eqn:Hlookup.
  - split; [left; eauto | reflexivity].
  - destruct (existsb (String.eqb key) Object_prototype_keys) eqn:Hkey.
    + split; [right; now apply prototype_key_In | reflexivity].
    + split; [discriminate|].
      intros [[a Ha] | Hin]; [discriminate|].
      apply prototype_key_In in Hin. congruence.
Qed.

(** Away from the names of [Object.prototype], property access is the
    lookup of an own property. *)
Lemma truthy_get_property_ordinary {A} (obj : gmap string A) (key : string) :
  ~ In key Object_prototype_keys ->
  truthy_property (get_property obj key) = true <-> is_Some (obj !! key).
Proof.
  intros Hordinary. rewrite truthy_get_property. unfold has_property.
  split; [intros [Hown | Hin]; [exact Hown | contradiction] | now left].
Qed.

(** ** Facts about runs *)

Lemma exec_bind {A B} (m : M A) (k : A -> M B) (st : PrintState) :
  exec (bind m k) st = exec (k (fst (m st))) (exec m st).
Proof. unfold exec, bind. now destruct (m st). Qed.

Lemma exec_seq {B} (m : M unit) (k : M B) (st : PrintState) :
  exec (m ;; k) st = exec k (exec m st).
Proof. apply exec_bind. Qed.

Section Preservation.
Context {P : PrintState -> Prop}.

Lemma preserves_ret {A} (a : A) : preserves P (ret a).
Proof. intros st Hst. exact Hst. Qed.

Lemma preserves_bind {A B} (m : M A) (k : A -> M B) :
  preserves P m -> (forall a, preserves P (k a)) -> preserves P (bind m k).
Proof.
  intros Hm Hk st Hst. rewrite exec_bind. apply Hk, Hm, Hst.
Qed.

Lemma preserves_when (c : bool) (m : M unit) :
  (c = true -> preserves P m) -> preserves P (when c m).
Proof.
  destruct c; intros Hm; [now apply Hm | apply preserves_ret].
Qed.

Lemma preserves_mapM {A B} (f : A -> M B) (l : list A) :
  (forall x, preserves P (f x)) -> preserves P (mapM f l).
Proof.
  intros Hf. induction l as [|x l IH]; cbn [mapM].
  - apply preserves_ret.
  - apply preserves_bind; [apply Hf | intros y].
    apply preserves_bind; [apply IH | intros ys]. apply preserves_ret.
Qed.

Lemma preserves_getOutput : preserves P getOutput.
Proof. intros st Hst. exact Hst. Qed.

Lemma preserves_getHasConnectionStatus : preserves P getHasConnectionStatus.
Proof. intros st Hst. exact Hst. Qed.
End Preservation.

(** The steps of [printBindings_body]. *)
Create HintDb steps.
#[export] Hint Unfold data_blobs_group durable_objects_group workflows_group
  kv_namespaces_group send_email_group queues_group d1_databases_group
  vectorize_group hyperdrive_group r2_buckets_group logfwdr_group
  secrets_store_secrets_group services_group analytics_engine_datasets_group
  text_blobs_group browser_group images_group ai_group pipelines_group
  assets_group version_metadata_group unsafe_bindings_group vars_group
  wasm_modules_group dispatch_namespaces_group mtls_certificates_group
  unsafe_metadata_group log_bindings log_tail_consumers log_footnote : steps.

(** Walks down a computation, leaving its primitive steps to [leaf]. *)
Ltac preserves_walk leaf :=
  repeat first
    [ apply preserves_ret
    | apply preserves_getOutput
    | apply preserves_getHasConnectionStatus
    | leaf
    | apply preserves_bind; [| intros ?]
    | apply preserves_when; intros ?
    | apply preserves_mapM; intros ?
    | match goal with
      | |- preserves _ (match ?x with _ => _ end) => destruct x eqn:?
      end ].

Lemma printBindings_exec `{Builtins} env bindings tailConsumers context :
  printBindings env bindings tailConsumers context
  = exec (printBindings_body env bindings tailConsumers context) initialState.
Proof. reflexivity. Qed.

(** Steps that leave the flag and the registry reads alone. *)
Lemma preserves_status_push Q group : preserves (on_status Q) (push group).
Proof. intros st Hst. exact Hst. Qed.

Lemma preserves_status_emit Q e : preserves (on_status Q) (emit e).
Proof. intros st Hst. exact Hst. Qed.

Ltac status_leaf :=
  first [ apply preserves_status_push | apply preserves_status_emit ].

(** Steps seen from [output]: everything but [push] leaves it alone. *)
Lemma preserves_prefix_push pre group : preserves (has_prefix pre) (push group).
Proof.
  intros st [groups Hst]. exists (groups ++ [group]).
  unfold exec, push. cbn. rewrite Hst. now rewrite <- app_assoc.
Qed.

Lemma preserves_prefix_emit pre e : preserves (has_prefix pre) (emit e).
Proof. intros st Hst. exact Hst. Qed.

Lemma preserves_prefix_readRegistry pre context service :
  preserves (has_prefix pre) (readRegistry context service).
Proof. intros st Hst. exact Hst. Qed.

Lemma preserves_prefix_setHasConnectionStatus pre :
  preserves (has_prefix pre) setHasConnectionStatus.
Proof. intros st Hst. exact Hst. Qed.

Ltac prefix_leaf :=
  first [ apply preserves_prefix_push | apply preserves_prefix_emit
        | apply preserves_prefix_readRegistry
        | apply preserves_prefix_setHasConnectionStatus ].

Lemma appends_of_preserves {A} (m : M A) :
  (forall pre, preserves (has_prefix pre) m) -> appends m.
Proof.
  intros Hm st. apply (Hm (output st)). exists []. now rewrite app_nil_r.
Qed.

Lemma output_unchanged_of_preserves {A} (m : M A) :
  (forall groups, preserves (fun st => output st = groups) m) ->
  forall st, output (exec m st) = output st.
Proof. intros Hm st. now apply (Hm (output st)). Qed.

(** ** The suffix decision table *)

Lemma normalizeValue_string (s : string) : normalizeValue (JsString s) = s.
Proof. destruct s; reflexivity. Qed.

(** C4. [createAddSuffix]: when [isProvisioning] is true or [isLocalDev]
    is false (each defaulting to false) the result is the normalized
    value itself, whatever [isSimulatedLocally] is; otherwise the
    normalized value is followed by [" [simulated locally]"] when
    [isSimulatedLocally] is true and by
    [" [connected to remote resource]"] when it is false or omitted. A
    missing or symbolic value normalizes to the empty string, and a
    string normalizes to itself. *)
Theorem createAddSuffix_decision_table
    (isProvisioning isLocalDev isSimulatedLocally : option bool) (value : JsValue) :
  (default false isProvisioning = true \/ default false isLocalDev = false ->
     createAddSuffix isProvisioning isLocalDev value isSimulatedLocally
     = normalizeValue value)
  /\ (default false isProvisioning = false -> default false isLocalDev = true ->
        createAddSuffix isProvisioning isLocalDev value isSimulatedLocally
        = normalizeValue value
          +:+ (if default false isSimulatedLocally
               then " [simulated locally]"
               else " [connected to remote resource]"))
  /\ (value = JsUndefined \/ value = JsSymbol -> normalizeValue value = EmptyString)
  /\ (forall s, value = JsString s -> normalizeValue value = s).
Proof.
  unfold createAddSuffix. repeat split.
  - intros [-> | ->]; [reflexivity|]. now rewrite orb_true_r.
  - intros -> ->. cbn [orb negb]. now destruct (default false isSimulatedLocally).
  - now intros [-> | ->].
  - intros s ->. apply normalizeValue_string.
Qed.

Lemma createAddSuffix_decision_table_witness :
  createAddSuffix (Some true) (Some true) (JsString "my-kv") (Some true) = "my-kv"
  /\ createAddSuffix None (Some true) (JsString "my-kv") (Some true)
     = "my-kv [simulated locally]"
  /\ createAddSuffix None (Some true) JsSymbol None = " [connected to remote resource]".
Proof.
  split; [|split].
  - apply (proj1 (createAddSuffix_decision_table
                    (Some true) (Some true) (Some true) (JsString "my-kv"))).
    left. reflexivity.
  - apply (proj1 (proj2 (createAddSuffix_decision_table
                           None (Some true) (Some true) (JsString "my-kv"))));
      reflexivity.
  - apply (proj1 (proj2 (createAddSuffix_decision_table
                           None (Some true) None JsSymbol)));
      reflexivity.
Defined.

(** ** Truncation *)

(** C5. [truncate] on a string: a string of 40 characters or more is
    rendered in exactly 40 characters, the last three being ["..."]; a
    shorter string is rendered unchanged. *)
Theorem truncate_string `{Builtins} (s : string) :
  (40 <= String.length s ->
     String.length (truncate (inl s)) = 40
     /\ endsWith (truncate (inl s)) "..." = true)
  /\ (String.length s < 40 -> truncate (inl s) = s).
Proof.
  unfold truncate. split.
  - intros Hlen.
    destruct (Nat.ltb_spec (String.length s) 40) as [Hlt | _]; [lia|].
    split.
    + rewrite length_append, length_substring_0 by (cbn; lia). reflexivity.
    + apply endsWith_append.
  - intros Hlen.
    destruct (Nat.ltb_spec (String.length s) 40) as [_ | Hge]; [reflexivity | lia].
Qed.

Lemma truncate_string_witness :
  truncate (inl "0123456789012345678901234567890123456789")
  = "0123456789012345678901234567890123456..."
  /\ String.length (truncate (inl "0123456789012345678901234567890123456789")) = 40
  /\ truncate (inl "production") = "production".
Proof.
  split; [reflexivity|]. split.
  - apply (proj1 (truncate_string "0123456789012345678901234567890123456789")).
    vm_compute. lia.
  - apply (proj2 (truncate_string "production")).
    vm_compute. lia.
Defined.

(** ** Durable object bindings *)

(** C9. A durable object binding without a script name (missing or
    empty) is shown as its class name alone, and building its entry
    leaves the whole state, [hasConnectionStatus] included, as it was:
    in every environment and context. *)
Theorem durable_object_without_script_name
    (env : Env) (context : Context) (b : CfDurableObject) (st : PrintState) :
  truthy_ostring (do_script_name b) = false ->
  durable_object_entry env context b st
  = ({| key := do_name b; value := do_class_name b |}, st).
Proof.
  intros Hscript. unfold durable_object_entry. now rewrite Hscript.
Qed.

Lemma durable_object_without_script_name_witness :
  durable_object_entry color_env (local_context (Defined counter_registry))
    {| do_name := "COUNTER"; do_class_name := "Counter"; do_script_name := None |}
    initialState
  = ({| key := "COUNTER"; value := "Counter" |}, initialState).
Proof.
  apply (durable_object_without_script_name color_env
           (local_context (Defined counter_registry))
           {| do_name := "COUNTER"; do_class_name := "Counter";
              do_script_name := None |} initialState).
  reflexivity.
Defined.

(** The rendering of a verdict determines the verdict. *)
Lemma durable_object_value_inj env class_name script_name v1 v2 :
  durable_object_value env class_name script_name v1
  = durable_object_value env class_name script_name v2 ->
  v1 = v2.
Proof.
  destruct env as [[] mixed multi];
    destruct v1, v2; try reflexivity; unfold durable_object_value; intros Heq;
    do 3 apply append_inj_l in Heq; vm_compute in Heq; discriminate.
Qed.

Lemma durable_object_defined_spec (definition : WorkerDefinition) (class_name : string) :
  durable_object_defined (OwnProperty definition) class_name = true
  <-> exists d, In d (durableObjects definition) /\ className d = class_name.
Proof.
  unfold durable_object_defined. rewrite existsb_exists.
  split; intros [d [Hin Hd]]; exists d; split; trivial;
    now apply String.eqb_eq.
Qed.

(** C2, as amended. A durable object binding with a non-empty script
    name, shown in local-dev mode against a registry that holds the
    referenced service: the value is the class name followed by
    "(defined in <script> <marker>)", where the marker is the green
    "[connected]" exactly when the registry entry's [durableObjects]
    has an item whose [className] is the binding's class name, and the
    red "[not connected]" otherwise. The marker is followed by the
    closing parenthesis, so the value ends with marker and parenthesis.
    In both cases [hasConnectionStatus] is set and the registry read is
    recorded. *)
Theorem durable_object_connected_iff
    (env : Env) (context : Context) (b : CfDurableObject) (st : PrintState)
    (script_name : string) (reg : WorkerRegistry) (definition : WorkerDefinition) :
  do_script_name b = Some script_name ->
  truthy_string script_name = true ->
  truthy_obool (local context) = true ->
  registry context = Defined reg ->
  reg !! script_name = Some definition ->
  exists verdict,
    durable_object_entry env context b st
    = ({| key := do_name b;
          value := durable_object_value env (do_class_name b) script_name verdict |},
       {| output := output st;
          hasConnectionStatus := true;
          registryReads := registryReads st ++ [script_name];
          logged := logged st |})
    /\ (verdict = Connected
        <-> exists d, In d (durableObjects definition)
                      /\ className d = do_class_name b)
    /\ (verdict = NotConnected
        <-> ~ exists d, In d (durableObjects definition)
                        /\ className d = do_class_name b)
    /\ (verdict = Connected ->
        endsWith (durable_object_value env (do_class_name b) script_name verdict)
          (chalk_green env "[connected]" +:+ ")") = true).
Proof.
  intros Hscript Htruthy Hlocal Hreg Hlookup.
  pose proof (durable_object_defined_spec definition (do_class_name b)) as Hspec.
  exists (if durable_object_defined (OwnProperty definition) (do_class_name b)
          then Connected else NotConnected).
  split.
  - unfold durable_object_entry, registry_not_null, readRegistry,
      setHasConnectionStatus, bind, ret.
    rewrite Hscript, Hreg, Hlocal. cbn [truthy_ostring from_option id andb].
    rewrite Htruthy, (get_property_own _ _ _ Hlookup).
    now destruct (durable_object_defined (OwnProperty definition) (do_class_name b)).
  - destruct (durable_object_defined (OwnProperty definition) (do_class_name b)).
    + split; [|split].
      * split; [intros _; now apply Hspec | reflexivity].
      * split; [discriminate|]. intros Hnot. exfalso. apply Hnot. now apply Hspec.
      * intros _. unfold durable_object_value.
        replace (do_class_name b +:+ " (defined in " +:+ script_name +:+ " "
                   +:+ chalk_green env "[connected]" +:+ ")")
          with ((do_class_name b +:+ " (defined in " +:+ script_name +:+ " ")
                +:+ (chalk_green env "[connected]" +:+ ")"))
          by (now rewrite !append_assoc).
        apply endsWith_append.
    + split; [|split].
      * split; [discriminate|]. intros Hex. apply Hspec in Hex. discriminate.
      * split; [|reflexivity]. intros _ Hex. apply Hspec in Hex. discriminate.
      * discriminate.
Qed.

Lemma durable_object_connected_iff_witness :
  exists verdict,
    durable_object_entry plain_env (local_context (Defined counter_registry))
      counter_binding initialState
    = ({| key := "COUNTER";
          value := durable_object_value plain_env "Counter" "other-service" verdict |},
       {| output := []; hasConnectionStatus := true;
          registryReads := [ "other-service" ]; logged := [] |})
    /\ verdict = Connected.
Proof.
  destruct (durable_object_connected_iff plain_env
              (local_context (Defined counter_registry)) counter_binding
              initialState "other-service" counter_registry counter_definition
              eq_refl eq_refl eq_refl eq_refl eq_refl)
    as [verdict [Hentry [Hconnected _]]].
  exists verdict. split; [exact Hentry|].
  apply Hconnected. exists {| className := "Counter" |}.
  split; [left; reflexivity | reflexivity].
Defined.

(** C2, as stated, fails on the scenario of the claim: class [Counter]
    of [other-service], present in the registry, in local-dev mode. The
    value is "Counter (defined in other-service [connected])": it ends
    with a parenthesis, not with the connected marker, with and without
    colours. *)
Lemma durable_object_value_does_not_end_with_marker :
  counter_registry !! "other-service" = Some counter_definition
  /\ In {| className := do_class_name counter_binding |}
        (durableObjects counter_definition)
  /\ value (fst (durable_object_entry plain_env
                (local_context (Defined counter_registry))
                counter_binding initialState))
  = "Counter (defined in other-service [connected])"
  /\ endsWith
       (value (fst (durable_object_entry plain_env
                      (local_context (Defined counter_registry))
                      counter_binding initialState)))
       (chalk_green plain_env "[connected]") = false
  /\ endsWith
       (value (fst (durable_object_entry color_env
                      (local_context (Defined counter_registry))
                      counter_binding initialState)))
       (chalk_green color_env "[connected]") = false.
Proof.
  split; [reflexivity|]. split; [now left|].
  repeat split; vm_compute; reflexivity.
Qed.

(** ** Service bindings *)

Lemma service_value_inj env base v1 v2 :
  service_value env base v1 = service_value env base v2 -> v1 = v2.
Proof.
  assert (Hne : forall tail, truthy_string tail = true -> base +:+ tail <> base)
    by (intros tail Ht; now apply append_nonempty_neq).
  destruct env as [[] [] multi];
    destruct v1, v2; try reflexivity; unfold service_value; cbn [MIXED_MODE];
    intros Heq;
    try (apply append_inj_l in Heq; vm_compute in Heq; discriminate);
    exfalso;
    first [ eapply Hne; [|exact Heq] | eapply Hne; [|symmetry; exact Heq] ];
    reflexivity.
Qed.


Lemma truthy_registry_lookup (context : Context) (service : string) :
  truthy_property (registry_lookup context service) = true
  <-> exists r, registry context = Defined r /\ has_property r service.
Proof.
  unfold registry_lookup. destruct (registry context) as [| |r].
  - split; [discriminate | intros [r [Hr _]]; discriminate].
  - split; [discriminate | intros [r [Hr _]]; discriminate].
  - rewrite truthy_get_property. split.
    + intros Hfound. exists r. split; [reflexivity | exact Hfound].
    + intros [r' [Hr Hfound]]. injection Hr as <-. exact Hfound.
Qed.






(** ** The connection status flag *)

Section StatusInvariants.
Context `{Builtins}.
Variable env : Env.
Variable bindings : Bindings.
Variable tailConsumers : list CfTailConsumer.
Variable context : Context.

Lemma tracks_reads_after_read st service :
  status_tracks_reads
    {| output := output st;
       hasConnectionStatus := true;
       registryReads := registryReads st ++ [service];
       logged := logged st |}.
Proof.
  unfold status_tracks_reads, on_status. cbn. split; [reflexivity|].
  intros _ Hnil. now apply app_eq_nil in Hnil as [_ Hnil].
Qed.

Lemma durable_object_entry_tracks_reads b :
  preserves status_tracks_reads (durable_object_entry env context b).
Proof.
  intros st Hst.
  unfold exec, durable_object_entry, readRegistry, setHasConnectionStatus, bind, ret.
  destruct (truthy_ostring (do_script_name b)); [|exact Hst].
  destruct (truthy_obool (local context) && registry_not_null context); [|exact Hst].
  cbn [snd fst output hasConnectionStatus registryReads logged].
  match goal with
  | |- context [if ?c then _ else _] => destruct c
  end; apply tracks_reads_after_read.
Qed.

Lemma service_entry_tracks_reads b :
  preserves status_tracks_reads (service_entry env context b).
Proof.
  intros st Hst.
  unfold exec, service_entry, readRegistry, setHasConnectionStatus, bind, ret.
  destruct (truthy_obool (service_remote b)); [exact Hst|].
  destruct (truthy_obool (local context) && registry_not_null context); [|exact Hst].
  cbn [snd fst output hasConnectionStatus registryReads logged].
  match goal with
  | |- context [if service_defined ?d ?e then _ else _] =>
      destruct (service_defined d e)
  end; [destruct (MIXED_MODE env)|]; apply tracks_reads_after_read.
Qed.

Lemma tail_consumer_line_tracks_reads t :
  preserves status_tracks_reads (tail_consumer_line env context t).
Proof.
  intros st Hst.
  unfold exec, tail_consumer_line, readRegistry, setHasConnectionStatus, bind, ret.
  destruct (truthy_obool (local context) && registry_not_null context); [|exact Hst].
  cbn [snd fst output hasConnectionStatus registryReads logged].
  match goal with
  | |- context [if truthy_property ?d then _ else _] => destruct (truthy_property d)
  end; apply tracks_reads_after_read.
Qed.

Lemma printBindings_body_tracks_reads :
  preserves status_tracks_reads
    (printBindings_body env bindings tailConsumers context).
Proof.
  unfold printBindings_body. autounfold with steps. cbv zeta.
  preserves_walk ltac:(first
    [ status_leaf
    | apply durable_object_entry_tracks_reads
    | apply service_entry_tracks_reads
    | apply tail_consumer_line_tracks_reads ]).
Qed.

(** With a [null] registry the three kinds of entries that may read
    the registry leave the state alone. *)
Lemma durable_object_entry_null b st :
  registry context = Null ->
  exec (durable_object_entry env context b) st = st.
Proof.
  intros Hnull. unfold exec, durable_object_entry, registry_not_null, bind, ret.
  rewrite Hnull, andb_false_r.
  now destruct (truthy_ostring (do_script_name b)).
Qed.

Lemma service_entry_null b st :
  registry context = Null ->
  exec (service_entry env context b) st = st.
Proof.
  intros Hnull. unfold exec, service_entry, registry_not_null, bind, ret.
  rewrite Hnull, andb_false_r.
  now destruct (truthy_obool (service_remote b)).
Qed.

Lemma tail_consumer_line_null t st :
  registry context = Null ->
  exec (tail_consumer_line env context t) st = st.
Proof.
  intros Hnull. unfold exec, tail_consumer_line, registry_not_null, bind, ret.
  now rewrite Hnull, andb_false_r.
Qed.

Lemma printBindings_body_null_untouched :
  registry context = Null ->
  preserves status_untouched
    (printBindings_body env bindings tailConsumers context).
Proof.
  intros Hnull.
  unfold printBindings_body. autounfold with steps. cbv zeta.
  preserves_walk ltac:(first
    [ status_leaf
    | intros st Hst; rewrite durable_object_entry_null by exact Hnull; exact Hst
    | intros st Hst; rewrite service_entry_null by exact Hnull; exact Hst
    | intros st Hst; rewrite tail_consumer_line_null by exact Hnull; exact Hst ]).
Qed.
End StatusInvariants.

Lemma status_tracks_reads_initial : status_tracks_reads initialState.
Proof. unfold status_tracks_reads, on_status. cbn. split; [tauto | discriminate]. Qed.

Lemma status_untouched_initial : status_untouched initialState.
Proof. unfold status_untouched, on_status. cbn. tauto. Qed.

Lemma exec_log_footnote env st :
  exec (log_footnote env) st
  = {| output := output st;
       hasConnectionStatus := hasConnectionStatus st;
       registryReads := registryReads st;
       logged := logged st
                 ++ (if hasConnectionStatus st
                     then [ OnceInfo (connection_status_footnote env) ]
                     else []) |}.
Proof.
  unfold exec, log_footnote, getHasConnectionStatus, bind, when, emit, ret.
  destruct st as [o [] r l]; cbn; [reflexivity|]. now rewrite app_nil_r.
Qed.



(** C1, as amended. With a registry that is explicitly [null] no
    connectivity marker is rendered: a durable object binding defined
    in another script is shown as "class (defined in script)", a
    service binding that is not remote as its service (and entrypoint)
    alone, building either entry leaves the state alone, and at the end
    of the run nothing was read from the registry and
    [hasConnectionStatus] is false. A registry that is missing is not
    told apart from one that lacks the service: in local-dev mode both
    bindings get the not-connected marker and [hasConnectionStatus] is
    set. *)
Theorem null_registry_renders_no_marker `{Builtins}
    (env : Env) (bindings : Bindings) (tailConsumers : list CfTailConsumer)
    (context : Context) :
  (registry context = Null ->
     (forall b st script_name,
         do_script_name b = Some script_name ->
         truthy_string script_name = true ->
         durable_object_entry env context b st
         = ({| key := do_name b;
               value := durable_object_value env (do_class_name b) script_name
                          Unknown |}, st))
     /\ (forall b st,
           truthy_obool (service_remote b) = false ->
           service_entry env context b st
           = ({| key := service_binding b;
                 value := service_value env (service_base b) Unknown |}, st))
     /\ registryReads (printBindings env bindings tailConsumers context) = []
     /\ hasConnectionStatus (printBindings env bindings tailConsumers context)
        = false)
  /\ (registry context = Undefined ->
      truthy_obool (local context) = true ->
      (forall b st script_name,
          do_script_name b = Some script_name ->
          truthy_string script_name = true ->
          durable_object_entry env context b st
          = ({| key := do_name b;
                value := durable_object_value env (do_class_name b) script_name
                           NotConnected |},
             {| output := output st;
                hasConnectionStatus := true;
                registryReads := registryReads st ++ [script_name];
                logged := logged st |}))
      /\ (forall b st,
            truthy_obool (service_remote b) = false ->
            service_entry env context b st
            = ({| key := service_binding b;
                  value := service_value env (service_base b) NotConnected |},
               {| output := output st;
                  hasConnectionStatus := true;
                  registryReads := registryReads st ++ [service_service b];
                  logged := logged st |}))).
Proof.
  split.
  - intros Hnull. split; [|split].
    + intros b st script_name Hscript Htruthy.
      unfold durable_object_entry, registry_not_null, bind, ret.
      rewrite Hnull, andb_false_r, Hscript.
      cbn [truthy_ostring from_option id]. now rewrite Htruthy.
    + intros b st Hremote.
      unfold service_entry, service_base, registry_not_null, bind, ret.
      rewrite Hnull, andb_false_r, Hremote. reflexivity.
    + pose proof (printBindings_body_null_untouched env bindings tailConsumers
                    context Hnull initialState status_untouched_initial) as Hinv.
      exact Hinv.
  - intros Hundefined Hlocal. split.
    + intros b st script_name Hscript Htruthy.
      unfold durable_object_entry, registry_not_null, readRegistry,
        setHasConnectionStatus, bind, ret.
      rewrite Hundefined, Hlocal, Hscript.
      cbn [truthy_ostring from_option id andb]. now rewrite Htruthy.
    + intros b st Hremote.
      unfold service_entry, service_base, registry_not_null, readRegistry,
        setHasConnectionStatus, bind, ret.
      rewrite Hundefined, Hlocal, Hremote. reflexivity.
Qed.

Lemma null_registry_renders_no_marker_witness :
  durable_object_entry color_env (local_context Null) counter_binding initialState
  = ({| key := "COUNTER"; value := "Counter (defined in other-service)" |},
     initialState)
  /\ hasConnectionStatus (printBindings color_env counter_bindings []
                            (local_context Null)) = false
  /\ service_entry plain_env (local_context Undefined) auth_binding initialState
     = ({| key := "AUTH"; value := "auth#Admin [not connected]" |},
        {| output := []; hasConnectionStatus := true;
           registryReads := [ "auth" ]; logged := [] |}).
Proof.
  destruct (null_registry_renders_no_marker color_env counter_bindings []
              (local_context Null)) as [Hnull _].
  destruct (Hnull eq_refl) as [Hdo [_ [_ Hflag]]].
  destruct (null_registry_renders_no_marker plain_env counter_bindings []
              (local_context Undefined)) as [_ Habsent].
  destruct (Habsent eq_refl eq_refl) as [_ Hservice].
  split; [|split].
  - exact (Hdo counter_binding initialState "other-service" eq_refl eq_refl).
  - exact Hflag.
  - exact (Hservice auth_binding initialState eq_refl).
Defined.

(** C1, as stated, fails for a missing registry: in local-dev mode with
    no [registry] in the context, the binding to class [Counter] of
    [other-service] is shown with the not-connected marker, which is
    not the rendering of the verdict [Unknown], and
    [hasConnectionStatus] is true at the end of the run. The run is the
    same as with an empty registry. *)
Lemma absent_registry_renders_not_connected :
  durable_object_entry plain_env (local_context Undefined) counter_binding
    initialState
  = ({| key := "COUNTER";
        value := "Counter (defined in other-service [not connected])" |},
     {| output := []; hasConnectionStatus := true;
        registryReads := [ "other-service" ]; logged := [] |})
  /\ value (fst (durable_object_entry plain_env (local_context Undefined)
                   counter_binding initialState))
     <> durable_object_value plain_env "Counter" "other-service" Unknown
  /\ hasConnectionStatus
       (printBindings plain_env counter_bindings [] (local_context Undefined))
     = true
  /\ printBindings plain_env counter_bindings [] (local_context Undefined)
     = printBindings plain_env counter_bindings [] (local_context (Defined ∅)).
Proof.
  split; [reflexivity|]. split; [|split].
  - vm_compute. discriminate.
  - reflexivity.
  - reflexivity.
Qed.

(** ** The groups of the output *)

Lemma preserves_output_emit groups e :
  preserves (fun st => output st = groups) (emit e).
Proof. intros st Hst. exact Hst. Qed.

Lemma preserves_output_readRegistry groups context service :
  preserves (fun st => output st = groups) (readRegistry context service).
Proof. intros st Hst. exact Hst. Qed.

Lemma preserves_output_setHasConnectionStatus groups :
  preserves (fun st => output st = groups) setHasConnectionStatus.
Proof. intros st Hst. exact Hst. Qed.

Ltac output_leaf :=
  first [ apply preserves_output_emit | apply preserves_output_readRegistry
        | apply preserves_output_setHasConnectionStatus ].

(** Proves [appends m] for a step [m] of the body. *)
Ltac solve_appends :=
  apply appends_of_preserves; intros ?;
  autounfold with steps; unfold durable_object_entry, service_entry; cbv zeta;
  preserves_walk prefix_leaf.

(** Proves that a logging step leaves [output] alone. *)
Ltac solve_output_unchanged :=
  apply output_unchanged_of_preserves; intros ?;
  autounfold with steps; unfold tail_consumer_line; cbv zeta;
  preserves_walk output_leaf.


Lemma emits_push group : emits (push group) [group].
Proof. intros st. reflexivity. Qed.

Section StepOutputs.
Context `{Builtins}.
Variable env : Env.
Variable bindings : Bindings.
Variable tailConsumers : list CfTailConsumer.
Variable context : Context.

Lemma output_log_bindings st :
  output (exec (log_bindings env context) st) = output st.
Proof. revert st. solve_output_unchanged. Qed.

Lemma output_log_tail_consumers st :
  output (exec (log_tail_consumers env tailConsumers context) st) = output st.
Proof. revert st. solve_output_unchanged. Qed.

Lemma output_log_footnote st :
  output (exec (log_footnote env) st) = output st.
Proof. revert st. solve_output_unchanged. Qed.












Lemma appends_log_tail_consumers :
  appends (log_tail_consumers env tailConsumers context).
Proof. unfold log_tail_consumers, tail_consumer_line. solve_appends. Qed.





End StepOutputs.





(** ** Unsafe bindings and metadata *)




(** ** Groups without entries *)

(** C6 fails on the code. With [unsafe: { metadata: {} }] and nothing
    else, in every environment and context, the output is one group
    named "Unsafe Metadata" that has no entry: the metadata step lacks
    the emptiness test of the other map kinds. *)
Theorem empty_metadata_emits_empty_group
    (env : Env) (tailConsumers : list CfTailConsumer) (context : Context) :
  output (printBindings env empty_metadata_bindings tailConsumers context)
  = [ {| group_name := "Unsafe Metadata"; entries := [] |} ].
Proof.
  rewrite printBindings_exec. unfold printBindings_body. rewrite !exec_seq.
  rewrite output_log_footnote, output_log_tail_consumers, output_log_bindings.
  reflexivity.
Qed.


Lemma preserves_populated_push group :
  entries group <> [] -> preserves groups_populated (push group).
Proof.
  intros Hentries st Hst. unfold groups_populated, exec, push. cbn.
  apply Forall_app. split; [exact Hst|]. now constructor.
Qed.

Lemma preserves_populated_emit e : preserves groups_populated (emit e).
Proof. intros st Hst. exact Hst. Qed.

Lemma preserves_populated_readRegistry context service :
  preserves groups_populated (readRegistry context service).
Proof. intros st Hst. exact Hst. Qed.

Lemma preserves_populated_setHasConnectionStatus :
  preserves groups_populated setHasConnectionStatus.
Proof. intros st Hst. exact Hst. Qed.

Lemma mapM_length {A B} (f : A -> M B) (l : list A) (st : PrintState) :
  length (fst (mapM f l st)) = length l.
Proof.
  revert st. induction l as [|x l IH]; intros st; cbn [mapM].
  - reflexivity.
  - unfold bind, ret. destruct (f x st) as [y st1].
    specialize (IH st1). destruct (mapM f l st1) as [ys st2].
    cbn in *. now rewrite IH.
Qed.

(** [l.map(f)] of a populated array is populated, whatever [f] does to
    the state. *)
Lemma preserves_populated_mapM_push {A} (f : A -> M DisplayEntry)
    (l : list A) (group_name : string) :
  nonempty l = true ->
  (forall x, preserves groups_populated (f x)) ->
  preserves groups_populated
    (entries <- mapM f l ;;
     push {| group_name := group_name; entries := entries |}).
Proof.
  intros Hl Hf st Hst. rewrite exec_bind.
  apply preserves_populated_push.
  - cbn [entries]. intros Hnil.
    pose proof (mapM_length f l st) as Hlen. rewrite Hnil in Hlen.
    destruct l; [discriminate Hl | discriminate Hlen].
  - now apply preserves_mapM.
Qed.

Lemma map_populated {A B} (f : A -> B) (l : list A) :
  l <> [] -> map f l <> [].
Proof. destruct l; [contradiction | discriminate]. Qed.

Lemma nonempty_populated {A} (l : list A) : nonempty l = true -> l <> [].
Proof. destruct l; [discriminate | discriminate]. Qed.

Lemma length_populated {A} (l : list A) :
  negb (Nat.eqb (length l) 0) = true -> l <> [].
Proof. destruct l; [discriminate | discriminate]. Qed.

Ltac populated_leaf :=
  first
    [ apply preserves_populated_emit
    | apply preserves_populated_readRegistry
    | apply preserves_populated_setHasConnectionStatus
    | apply preserves_populated_mapM_push; [assumption | intros ?]
    | apply preserves_populated_push; cbn [entries];
      first [ apply map_populated;
              first [ now apply nonempty_populated
                    | now apply length_populated
                    | congruence ]
            | discriminate
            | match goal with
              | |- (if ?c then _ else _) <> [] => destruct c; discriminate
              end ] ].

(** X13. Short of the metadata step, no step pushes a group without
    entries: when [unsafe.metadata] is missing or has an entry, every
    group of the output has at least one entry. *)
Lemma groups_populated_unless_empty_metadata `{Builtins}
    (env : Env) (bindings : Bindings) (tailConsumers : list CfTailConsumer)
    (context : Context) :
  unsafe_metadata_of bindings <> Some [] ->
  groups_populated (printBindings env bindings tailConsumers context).
Proof.
  intros Hmetadata. rewrite printBindings_exec.
  assert (Hbody : preserves groups_populated
                    (printBindings_body env bindings tailConsumers context)).
  { unfold printBindings_body. autounfold with steps.
    unfold durable_object_entry, service_entry, tail_consumer_line,
      unsafe_bindings_entries, unsafe_metadata_entries, vars_entries.
    cbv zeta.
    preserves_walk populated_leaf. }
  apply Hbody. constructor.
Qed.


(** ** The flag stays up *)

Lemma preserves_set_readRegistry context service :
  preserves status_set (readRegistry context service).
Proof. intros st Hst. exact Hst. Qed.

Lemma preserves_set_setHasConnectionStatus :
  preserves status_set setHasConnectionStatus.
Proof. intros st _. reflexivity. Qed.

Lemma status_set_flag st : status_set st -> hasConnectionStatus st = true.
Proof. intros Hst. exact Hst. Qed.

Ltac set_leaf :=
  first [ status_leaf | apply preserves_set_readRegistry
        | apply preserves_set_setHasConnectionStatus ].

Lemma durable_object_entry_keeps_set env context b :
  preserves status_set (durable_object_entry env context b).
Proof. unfold durable_object_entry. cbv zeta. preserves_walk set_leaf. Qed.

(** Once a durable object entry that reads the registry was built, the
    flag is up at the end of the [map]. *)
Lemma durable_object_entries_set env context (dos : list CfDurableObject) b st :
  In b dos ->
  truthy_ostring (do_script_name b) = true ->
  truthy_obool (local context) = true ->
  registry context <> Null ->
  status_set (exec (mapM (durable_object_entry env context) dos) st).
Proof.
  intros Hin Hscript Hlocal Hnull. revert st.
  induction dos as [|d dos IH]; intros st; [contradiction|].
  cbn [mapM]. rewrite exec_bind, exec_bind.
  apply preserves_ret.
  destruct Hin as [-> | Hin]; [|now apply IH].
  apply preserves_mapM; [intros x; apply durable_object_entry_keeps_set|].
  unfold exec, durable_object_entry, registry_not_null, readRegistry,
    setHasConnectionStatus, bind, ret.
  rewrite Hscript, Hlocal.
  destruct (registry context); [| contradiction |]; cbn [andb];
    match goal with
    | |- context [if ?c then _ else _] => destruct c
    end; reflexivity.
Qed.

(** A run that shows, in local-dev mode with a registry that is not
    [null], a durable object binding defined in another script ends
    with [hasConnectionStatus] true. *)
Lemma durable_object_run_sets_flag `{Builtins}
    (env : Env) (bindings : Bindings) (tailConsumers : list CfTailConsumer)
    (context : Context) (dos : list CfDurableObject) (b : CfDurableObject) :
  durable_objects bindings = Some dos ->
  In b dos ->
  truthy_ostring (do_script_name b) = true ->
  truthy_obool (local context) = true ->
  registry context <> Null ->
  hasConnectionStatus (printBindings env bindings tailConsumers context) = true.
Proof.
  intros Hdos Hin Hscript Hlocal Hnull.
  assert (Hstep : forall st,
             status_set (exec (durable_objects_group env bindings context) st)).
  { intros st. unfold durable_objects_group. rewrite Hdos.
    assert (Hne : nonempty dos = true) by (destruct dos; [contradiction | reflexivity]).
    rewrite Hne. cbn [when]. rewrite exec_bind.
    apply preserves_status_push.
    now apply (durable_object_entries_set env context dos b). }
  rewrite printBindings_exec. unfold printBindings_body. rewrite !exec_seq.
  apply status_set_flag.
  repeat lazymatch goal with
    | |- status_set (exec (durable_objects_group _ _ _) _) => fail
    | |- status_set (exec ?m ?st) =>
        let Hm := fresh "Hm" in
        assert (Hm : preserves status_set m)
          by (autounfold with steps; unfold service_entry, tail_consumer_line;
              cbv zeta; preserves_walk set_leaf);
        apply Hm; clear Hm
    end.
  apply Hstep.
Qed.


(** ** Scenarios *)

(** One variable and nothing else, outside local dev: one group with
    one entry, the value in double quotes. *)
Example scenario_single_var :
  output (printBindings plain_env foo_bindings []
            {| registry := Undefined; local := Some false;
               imagesLocalMode := None; name := None; provisioning := None |})
  = [ {| group_name := "Vars";
         entries := [ {| key := "FOO";
                         value := DQUOTE +:+ "bar" +:+ DQUOTE |} ] |} ].
Proof. reflexivity. Qed.

(** The durable object of class [Counter], found in the registry. *)
Example scenario_counter_connected :
  output (printBindings plain_env counter_bindings []
            (local_context (Defined counter_registry)))
  = [ {| group_name := "Durable Objects";
         entries := [ {| key := "COUNTER";
                         value := "Counter (defined in other-service [connected])" |} ] |} ]
  /\ hasConnectionStatus (printBindings plain_env counter_bindings []
                            (local_context (Defined counter_registry))) = true.
Proof. split; reflexivity. Qed.

(** The same binding with a [null] registry. *)
Example scenario_counter_null_registry :
  output (printBindings plain_env counter_bindings [] (local_context Null))
  = [ {| group_name := "Durable Objects";
         entries := [ {| key := "COUNTER";
                         value := "Counter (defined in other-service)" |} ] |} ]
  /\ hasConnectionStatus (printBindings plain_env counter_bindings []
                            (local_context Null)) = false.
Proof. split; reflexivity. Qed.

(** A KV namespace with [remote: false] in local dev. *)
Example scenario_kv_simulated_locally :
  output (printBindings plain_env kv_bindings [] (local_context Undefined))
  = [ {| group_name := "KV Namespaces";
         entries := [ {| key := "KV";
                         value := "kv-id [simulated locally]" |} ] |} ].
Proof. reflexivity. Qed.

(** A D1 database with a name, an identifier and a preview identifier. *)
Example scenario_preview_database :
  d1_database_value preview_database = Some "db (abc), Preview: (xyz)".
Proof. reflexivity. Qed.


(** ** More on truncation *)

Lemma substring_0_append (a b : string) :
  substring 0 (String.length a) (a +:+ b) = a.
Proof.
  induction a as [|c a IH].
  - destruct b; reflexivity.
  - rewrite append_cons. cbn [String.length substring]. now rewrite IH.
Qed.

(** X1. [truncate] never yields more than 40 characters, whether it is
    given a string or a record to serialise. *)
Theorem truncate_length_le `{Builtins} (item : string + Json) :
  String.length (truncate item) <= 40.
Proof.
  unfold truncate.
  set (s := match item with inl s => s | inr j => JSON_stringify j end).
  destruct (Nat.ltb_spec (String.length s) 40) as [Hlt | Hge]; [lia|].
  rewrite length_append, length_substring_0 by (cbn; lia). cbn. lia.
Qed.

(** X2. Truncating twice is truncating once. *)
Theorem truncate_idempotent `{Builtins} (item : string + Json) :
  truncate (inl (truncate item)) = truncate item.
Proof.
  unfold truncate.
  set (s := match item with inl s => s | inr j => JSON_stringify j end).
  destruct (Nat.ltb_spec (String.length s) 40) as [Hlt | Hge].
  - destruct (Nat.ltb_spec (String.length s) 40); [reflexivity | lia].
  - assert (Hlen : String.length (substring 0 (40 - 3) s) = 37)
      by (apply length_substring_0; cbn; lia).
    destruct (Nat.ltb_spec (String.length (substring 0 (40 - 3) s +:+ "...")) 40)
      as [Hlt | _].
    + rewrite length_append, Hlen in Hlt. cbn in Hlt. lia.
    + f_equal. change (40 - 3) with 37 at 1. rewrite <- Hlen at 1.
      apply substring_0_append.
Qed.

(** ** Send-email and D1 bindings *)

(** X3. The destination shown for a send-email binding is never empty:
    without a destination address and without allowed addresses (none
    given, an empty list, or empty strings only) it is "unrestricted". *)
Theorem send_email_destination_never_empty (emailBinding : CfSendEmailBindings) :
  truthy_string (send_email_destination emailBinding) = true
  /\ (truthy_ostring (email_destination_address emailBinding) = false ->
      truthy_string
        (join ", " (default [] (email_allowed_destination_addresses emailBinding)))
      = false ->
      send_email_destination emailBinding = "unrestricted").
Proof.
  unfold send_email_destination.
  destruct (email_destination_address emailBinding) as [d|];
    destruct (email_allowed_destination_addresses emailBinding) as [l|];
    cbn [truthy_ostring option_map from_option id].
  - destruct (truthy_string d) eqn:Hd.
    + split; [exact Hd | discriminate].
    + destruct (truthy_string (join ", " l)) eqn:Hl.
      * split; [exact Hl | discriminate].
      * split; reflexivity.
  - destruct (truthy_string d) eqn:Hd.
    + split; [exact Hd | discriminate].
    + split; reflexivity.
  - destruct (truthy_string (join ", " l)) eqn:Hl.
    + split; [exact Hl | discriminate].
    + split; reflexivity.
  - split; reflexivity.
Qed.

Lemma send_email_destination_never_empty_witness :
  send_email_destination unrestricted_email = "unrestricted".
Proof.
  apply (proj2 (send_email_destination_never_empty unrestricted_email));
    reflexivity.
Defined.

(** X4. The preview identifier of a D1 database is shown exactly when
    there is one and the database identifier is not "local": then the
    text ends with "Preview: (<preview id>)"; with the identifier
    "local" the text is "<name> (local)", or "local" without a name,
    whatever the preview identifier. *)
Theorem d1_preview_hidden_when_local (d : CfD1Database) :
  (forall preview,
      d1_preview_database_id d = Some preview ->
      truthy_string preview = true ->
      d1_database_id d <> JsString "local" ->
      exists before,
        d1_database_value d
        = Some (before +:+ "Preview: (" +:+ preview +:+ ")"))
  /\ (d1_database_id d = JsString "local" ->
      d1_database_value d
      = Some (if truthy_ostring (d1_database_name d)
              then default EmptyString (d1_database_name d) +:+ " (local)"
              else "local"))
  /\ (truthy_ostring (d1_preview_database_id d) = false ->
      d1_database_value d
      = d1_database_value
          {| d1_binding := d1_binding d;
             d1_database_name := d1_database_name d;
             d1_database_id := d1_database_id d;
             d1_preview_database_id := None;
             d1_remote := d1_remote d |}).
Proof.
  unfold d1_database_value. split; [|split].
  - intros preview Hpreview Htruthy Hlocal. rewrite Hpreview.
    cbn [truthy_ostring from_option id]. rewrite Htruthy.
    assert (Hne : (match d1_database_id d with
                   | JsString s => String.eqb s "local"
                   | _ => false
                   end) = false).
    { destruct (d1_database_id d) as [| |s]; try reflexivity.
      apply String.eqb_neq. congruence. }
    rewrite Hne. cbn [negb andb]. eexists. reflexivity.
  - intros Hid. rewrite Hid. cbn [truthy_ostring truthy_string andb].
    rewrite String.eqb_refl. cbn [negb]. rewrite andb_false_r.
    destruct (d1_database_name d) as [n|]; cbn [truthy_ostring]; [|reflexivity].
    now destruct (truthy_string n).
  - intros Hpreview. cbn [d1_preview_database_id d1_database_id d1_database_name
                          truthy_ostring andb].
    now rewrite Hpreview.
Qed.

Lemma d1_preview_hidden_when_local_witness :
  d1_database_value local_database = Some "db (local)"
  /\ exists before,
       d1_database_value preview_database
       = Some (before +:+ "Preview: (" +:+ "xyz" +:+ ")").
Proof.
  split.
  - apply (proj1 (proj2 (d1_preview_hidden_when_local local_database))).
    reflexivity.
  - apply (proj1 (d1_preview_hidden_when_local preview_database) "xyz");
      [reflexivity | reflexivity | discriminate].
Defined.


(** ** Tail consumers *)

(** X5. A tail consumer shown in local-dev mode with a registry that
    is not [null]: the line is "- <service>" followed by the green
    "[connected]" exactly when property access finds the service on the
    registry, that is when the registry has an entry for the service or
    the service is named like a member of [Object.prototype] (no
    entrypoint is looked at, and the MIXED_MODE flag does not change
    the marker), and by the red "[not connected]" otherwise; the lookup
    is recorded and [hasConnectionStatus] is set. With a [null]
    registry or outside local dev the line is "- <service>" alone and
    the state is left as it was. *)
Theorem tail_consumer_connected_iff
    (env : Env) (context : Context) (t : CfTailConsumer) (st : PrintState) :
  (resolves_connections context = true ->
     tail_consumer_line env context t st
     = ((if truthy_property (registry_lookup context (tail_service t))
         then "- " +:+ tail_service t +:+ " " +:+ chalk_green env "[connected]"
         else "- " +:+ tail_service t +:+ " " +:+ chalk_red env "[not connected]"),
        {| output := output st;
           hasConnectionStatus := true;
           registryReads := registryReads st ++ [tail_service t];
           logged := logged st |})
     /\ (truthy_property (registry_lookup context (tail_service t)) = true
         <-> exists r, registry context = Defined r
                       /\ has_property r (tail_service t))
     /\ (~ In (tail_service t) Object_prototype_keys ->
         (truthy_property (registry_lookup context (tail_service t)) = true
          <-> is_Some (registry_entry context (tail_service t)))))
  /\ (resolves_connections context = false ->
      tail_consumer_line env context t st = ("- " +:+ tail_service t, st)).
Proof.
  split.
  - intros Hresolves. split; [|split].
    + unfold resolves_connections in Hresolves.
      unfold tail_consumer_line, registry_lookup, readRegistry,
        setHasConnectionStatus, bind, ret.
      rewrite Hresolves.
      now destruct (truthy_property
                      match registry context with
                      | Defined r => get_property r (tail_service t)
                      | _ => NoProperty
                      end).
    + apply truthy_registry_lookup.
    + intros Hordinary. unfold registry_lookup, registry_entry.
      destruct (registry context) as [| |r].
      * split; [discriminate | intros [d Hd]; discriminate].
      * split; [discriminate | intros [d Hd]; discriminate].
      * now apply truthy_get_property_ordinary.
  - unfold resolves_connections, tail_consumer_line. now intros ->.
Qed.

Lemma tail_consumer_connected_iff_witness :
  tail_consumer_line plain_env (local_context (Defined auth_registry)) auth_tail
    initialState
  = ("- auth [connected]",
     {| output := []; hasConnectionStatus := true;
        registryReads := [ "auth" ]; logged := [] |})
  /\ tail_consumer_line plain_env (local_context (Defined empty_registry))
       constructor_tail initialState
     = ("- constructor [connected]",
        {| output := []; hasConnectionStatus := true;
           registryReads := [ "constructor" ]; logged := [] |})
  /\ tail_consumer_line plain_env (local_context Null) auth_tail initialState
     = ("- auth", initialState).
Proof.
  split; [|split].
  - apply (proj1 (proj1 (tail_consumer_connected_iff plain_env
                           (local_context (Defined auth_registry)) auth_tail
                           initialState) eq_refl)).
  - exact (proj1 (proj1 (tail_consumer_connected_iff plain_env
                           (local_context (Defined empty_registry))
                           constructor_tail initialState) eq_refl)).
  - apply (proj2 (tail_consumer_connected_iff plain_env (local_context Null)
                    auth_tail initialState)).
    reflexivity.
Defined.

(** ** Entries follow the bindings *)




(** ** What a run reads from the registry *)

Lemma reads_unchanged_of_preserves {A} (m : M A) :
  (forall reads, preserves (reads_are reads) m) ->
  forall st, registryReads (exec m st) = registryReads st.
Proof. intros Hm st. now apply (Hm (registryReads st)). Qed.

Lemma exec_mapM_cons {A B} (f : A -> M B) (x : A) (l : list A) (st : PrintState) :
  exec (mapM f (x :: l)) st = exec (mapM f l) (exec (f x) st).
Proof. cbn [mapM]. now rewrite !exec_bind. Qed.

Lemma reads_mapM {A B} (f : A -> M B) (reads_of : A -> list string)
    (l : list A) (st : PrintState) :
  (forall x st', registryReads (exec (f x) st') = registryReads st' ++ reads_of x) ->
  registryReads (exec (mapM f l) st)
  = registryReads st ++ concat (map reads_of l).
Proof.
  intros Hf. revert st. induction l as [|x l IH]; intros st.
  - cbn. now rewrite app_nil_r.
  - rewrite exec_mapM_cons, IH, Hf. cbn [map concat]. now rewrite app_assoc.
Qed.

Section Reads.
Context `{Builtins}.
Variable env : Env.
Variable bindings : Bindings.
Variable tailConsumers : list CfTailConsumer.
Variable context : Context.

Lemma reads_durable_object_entry b st :
  registryReads (exec (durable_object_entry env context b) st)
  = registryReads st
    ++ (if resolves_connections context && truthy_ostring (do_script_name b)
        then [ default EmptyString (do_script_name b) ]
        else []).
Proof.
  unfold exec, durable_object_entry, resolves_connections, readRegistry,
    setHasConnectionStatus, bind, ret.
  destruct (truthy_ostring (do_script_name b));
    destruct (truthy_obool (local context) && registry_not_null context);
    cbn [andb snd]; try (now rewrite app_nil_r).
  match goal with
  | |- context [if ?c then _ else _] => destruct c
  end; reflexivity.
Qed.

Lemma reads_service_entry b st :
  registryReads (exec (service_entry env context b) st)
  = registryReads st
    ++ (if resolves_connections context && negb (truthy_obool (service_remote b))
        then [ service_service b ]
        else []).
Proof.
  unfold exec, service_entry, resolves_connections, readRegistry,
    setHasConnectionStatus, bind, ret.
  destruct (truthy_obool (service_remote b));
    destruct (truthy_obool (local context) && registry_not_null context);
    cbn [andb negb snd]; try (now rewrite app_nil_r).
  match goal with
  | |- context [if service_defined ?d ?e then _ else _] =>
      destruct (service_defined d e)
  end; [destruct (MIXED_MODE env)|]; reflexivity.
Qed.

Lemma reads_tail_consumer_line t st :
  registryReads (exec (tail_consumer_line env context t) st)
  = registryReads st
    ++ (if resolves_connections context then [ tail_service t ] else []).
Proof.
  unfold exec, tail_consumer_line, resolves_connections, readRegistry,
    setHasConnectionStatus, bind, ret.
  destruct (truthy_obool (local context) && registry_not_null context);
    cbn [snd]; try (now rewrite app_nil_r).
  match goal with
  | |- context [if truthy_property ?d then _ else _] => destruct (truthy_property d)
  end; reflexivity.
Qed.

Lemma concat_durable_object_reads (dos : list CfDurableObject) :
  concat (map (fun b =>
                 if resolves_connections context && truthy_ostring (do_script_name b)
                 then [ default EmptyString (do_script_name b) ]
                 else []) dos)
  = if resolves_connections context then durable_object_scripts dos else [].
Proof.
  unfold durable_object_scripts.
  induction dos as [|b dos IH]; cbn [map concat List.filter].
  - now destruct (resolves_connections context).
  - rewrite IH.
    destruct (resolves_connections context); cbn [andb]; [|reflexivity].
    now destruct (truthy_ostring (do_script_name b)).
Qed.

Lemma concat_service_reads (ss : list CfService) :
  concat (map (fun b =>
                 if resolves_connections context
                    && negb (truthy_obool (service_remote b))
                 then [ service_service b ]
                 else []) ss)
  = if resolves_connections context then local_services ss else [].
Proof.
  unfold local_services.
  induction ss as [|b ss IH]; cbn [map concat List.filter].
  - now destruct (resolves_connections context).
  - rewrite IH.
    destruct (resolves_connections context); cbn [andb]; [|reflexivity].
    now destruct (truthy_obool (service_remote b)).
Qed.

Lemma concat_tail_reads :
  concat (map (fun t =>
                 if resolves_connections context then [ tail_service t ] else [])
              tailConsumers)
  = if resolves_connections context then map tail_service tailConsumers else [].
Proof.
  induction tailConsumers as [|t ts IH]; cbn [map concat].
  - now destruct (resolves_connections context).
  - rewrite IH. now destruct (resolves_connections context).
Qed.

Lemma reads_durable_objects_group st :
  registryReads (exec (durable_objects_group env bindings context) st)
  = registryReads st
    ++ (if resolves_connections context
        then durable_object_scripts (default [] (durable_objects bindings))
        else []).
Proof.
  unfold durable_objects_group.
  destruct (durable_objects bindings) as [dos|]; cbn [from_option id].
  - destruct dos as [|b dos].
    + cbn. destruct (resolves_connections context); now rewrite app_nil_r.
    + cbn [nonempty length Nat.ltb Nat.leb when]. rewrite exec_bind.
      change (registryReads
                (exec (mapM (durable_object_entry env context) (b :: dos)) st)
              = registryReads st
                ++ (if resolves_connections context
                    then durable_object_scripts (b :: dos) else [])).
      rewrite (reads_mapM _ _ _ _ reads_durable_object_entry).
      now rewrite concat_durable_object_reads.
  - cbn. destruct (resolves_connections context); now rewrite app_nil_r.
Qed.

Lemma reads_services_group st :
  registryReads (exec (services_group env bindings context) st)
  = registryReads st
    ++ (if resolves_connections context
        then local_services (default [] (services bindings))
        else []).
Proof.
  unfold services_group.
  destruct (services bindings) as [ss|]; cbn [from_option id].
  - destruct ss as [|b ss].
    + cbn. destruct (resolves_connections context); now rewrite app_nil_r.
    + cbn [nonempty length Nat.ltb Nat.leb when]. rewrite exec_bind.
      change (registryReads
                (exec (mapM (service_entry env context) (b :: ss)) st)
              = registryReads st
                ++ (if resolves_connections context
                    then local_services (b :: ss) else [])).
      rewrite (reads_mapM _ _ _ _ reads_service_entry).
      now rewrite concat_service_reads.
  - cbn. destruct (resolves_connections context); now rewrite app_nil_r.
Qed.

Lemma reads_log_tail_consumers st :
  registryReads (exec (log_tail_consumers env tailConsumers context) st)
  = registryReads st
    ++ (if resolves_connections context
        then map tail_service tailConsumers else []).
Proof.
  unfold log_tail_consumers. cbv zeta.
  destruct tailConsumers as [|t ts] eqn:Htail.
  - cbn. destruct (resolves_connections context); now rewrite app_nil_r.
  - cbn [nonempty length Nat.ltb Nat.leb when]. rewrite exec_bind.
    change (registryReads
              (exec (mapM (tail_consumer_line env context) (t :: ts)) st)
            = registryReads st
              ++ (if resolves_connections context
                  then map tail_service (t :: ts) else [])).
    rewrite (reads_mapM _ _ _ _ reads_tail_consumer_line).
    rewrite <- Htail. rewrite concat_tail_reads. now rewrite Htail.
Qed.
End Reads.

(** Rewrites the registry reads after the outermost step. *)
Ltac reads_step :=
  first
    [ rewrite reads_log_tail_consumers
    | rewrite reads_services_group
    | rewrite reads_durable_objects_group
    | match goal with
      | |- context [registryReads (exec ?m ?st)] =>
          rewrite (reads_unchanged_of_preserves m)
            by (intros ?; unfold reads_are; autounfold with steps; cbv zeta;
                preserves_walk status_leaf)
      end ].

Lemma reads_printBindings_body `{Builtins}
    (env : Env) (bindings : Bindings) (tailConsumers : list CfTailConsumer)
    (context : Context) (st : PrintState) :
  registryReads (exec (printBindings_body env bindings tailConsumers context) st)
  = registryReads st ++ expected_reads bindings tailConsumers context.
Proof.
  unfold printBindings_body. rewrite !exec_seq.
  do 30 reads_step.
  unfold expected_reads.
  destruct (resolves_connections context).
  - now rewrite <- !app_assoc.
  - now rewrite !app_nil_r.
Qed.


(** X8. At the end of a run [hasConnectionStatus] is true exactly when
    the context is in local-dev mode with a registry that is not [null]
    and there is a durable object binding naming a script, a service
    binding that is not remote, or a tail consumer. *)
Theorem hasConnectionStatus_iff `{Builtins}
    (env : Env) (bindings : Bindings) (tailConsumers : list CfTailConsumer)
    (context : Context) :
  hasConnectionStatus (printBindings env bindings tailConsumers context) = true
  <-> resolves_connections context = true
      /\ ((exists b, In b (default [] (durable_objects bindings))
                      /\ truthy_ostring (do_script_name b) = true)
          \/ (exists b, In b (default [] (services bindings))
                         /\ truthy_obool (service_remote b) = false)
          \/ tailConsumers <> []).
Proof.
  pose proof (printBindings_body_tracks_reads env bindings tailConsumers context
                initialState status_tracks_reads_initial) as Hinv.
  unfold status_tracks_reads, on_status in Hinv.
  rewrite printBindings_exec, <- Hinv, reads_printBindings_body.
  cbn [registryReads initialState app].
  unfold expected_reads, durable_object_scripts, local_services.
  destruct (resolves_connections context); [|split; [congruence | intros [? _]; discriminate]].
  split.
  - intros Hreads. split; [reflexivity|].
    destruct (List.filter (fun b => truthy_ostring (do_script_name b))
                (default [] (durable_objects bindings))) as [|b l] eqn:Hdo.
    + destruct (List.filter (fun b => negb (truthy_obool (service_remote b)))
                  (default [] (services bindings))) as [|b l] eqn:Hss.
      * right. right. intros ->. now apply Hreads.
      * right. left. exists b.
        assert (Hin : In b (List.filter
                              (fun b => negb (truthy_obool (service_remote b)))
                              (default [] (services bindings))))
          by (rewrite Hss; now left).
        apply filter_In in Hin as [Hin Hremote].
        split; [exact Hin|]. now destruct (truthy_obool (service_remote b)).
    + left. exists b.
      assert (Hin : In b (List.filter
                            (fun b => truthy_ostring (do_script_name b))
                            (default [] (durable_objects bindings))))
        by (rewrite Hdo; now left).
      now apply filter_In in Hin.
  - intros [_ [[b [Hin Hscript]] | [[b [Hin Hremote]] | Htail]]] Hnil.
    + apply app_eq_nil in Hnil as [Hnil _].
      apply map_eq_nil in Hnil.
      assert (Hb : In b (List.filter
                           (fun b => truthy_ostring (do_script_name b))
                           (default [] (durable_objects bindings))))
        by (apply filter_In; auto).
      now rewrite Hnil in Hb.
    + apply app_eq_nil in Hnil as [_ Hnil].
      apply app_eq_nil in Hnil as [Hnil _].
      apply map_eq_nil in Hnil.
      assert (Hb : In b (List.filter
                           (fun b => negb (truthy_obool (service_remote b)))
                           (default [] (services bindings))))
        by (apply filter_In; rewrite Hremote; auto).
      now rewrite Hnil in Hb.
    + apply app_eq_nil in Hnil as [_ Hnil].
      apply app_eq_nil in Hnil as [_ Hnil].
      apply map_eq_nil in Hnil. contradiction.
Qed.


(** ** The order of the groups *)

Lemma names_within_step {A} (m : M A) (expected : string) (order : list string)
    (st : PrintState) :
  List.last order EmptyString = expected ->
  order <> [] ->
  emits_at_most m expected ->
  sublist (map group_name (output st)) (List.removelast order) ->
  sublist (map group_name (output (exec m st))) order.
Proof.
  intros Hlast Hne Hm Hst. destruct (Hm st) as [groups [-> Hgroups]].
  rewrite map_app, (app_removelast_last EmptyString Hne), Hlast.
  now apply sublist_app.
Qed.

Lemma emits_at_most_nothing {A} (m : M A) (expected : string) (st : PrintState) :
  output (exec m st) = output st ->
  exists groups,
    output (exec m st) = output st ++ groups
    /\ sublist (map group_name groups) [expected].
Proof.
  intros ->. exists []. split; [now rewrite app_nil_r | apply sublist_nil_l].
Qed.

Lemma emits_at_most_one {A} (m : M A) (expected : string)
    (group : DisplayGroup) (st : PrintState) :
  output (exec m st) = output st ++ [group] ->
  group_name group = expected ->
  exists groups,
    output (exec m st) = output st ++ groups
    /\ sublist (map group_name groups) [expected].
Proof.
  intros -> <-. exists [group]. split; [reflexivity | cbn; reflexivity].
Qed.

(** Proves [emits_at_most] for a step without effects on the state but
    [push]. *)
Ltac solve_emits_at_most :=
  intros ?; autounfold with steps; unfold when; cbv zeta;
  repeat match goal with
         | |- context [match ?x with _ => _ end] => destruct x eqn:?
         end;
  first [ apply emits_at_most_nothing; reflexivity
        | eapply emits_at_most_one; reflexivity ].

Section GroupOrder.
Context `{Builtins}.
Variable env : Env.
Variable bindings : Bindings.
Variable tailConsumers : list CfTailConsumer.
Variable context : Context.

Lemma output_durable_object_entries dos st :
  output (exec (mapM (durable_object_entry env context) dos) st) = output st.
Proof.
  revert st. apply output_unchanged_of_preserves. intros groups.
  apply preserves_mapM. intros b. unfold durable_object_entry. cbv zeta.
  preserves_walk output_leaf.
Qed.

Lemma output_service_entries ss st :
  output (exec (mapM (service_entry env context) ss) st) = output st.
Proof.
  revert st. apply output_unchanged_of_preserves. intros groups.
  apply preserves_mapM. intros b. unfold service_entry. cbv zeta.
  preserves_walk output_leaf.
Qed.

Lemma emits_at_most_durable_objects_group :
  emits_at_most (durable_objects_group env bindings context)
    friendlyBindingNames.durable_objects.
Proof.
  intros st. unfold durable_objects_group.
  destruct (durable_objects bindings) as [dos|];
    [destruct (nonempty dos)|]; cbn [when];
    try (apply emits_at_most_nothing; reflexivity).
  apply (emits_at_most_one _ _
           {| group_name := friendlyBindingNames.durable_objects;
              entries := fst (mapM (durable_object_entry env context) dos st) |});
    [|reflexivity].
  rewrite exec_bind.
  change (output (exec (mapM (durable_object_entry env context) dos) st)
          ++ [ {| group_name := friendlyBindingNames.durable_objects;
                  entries := fst (mapM (durable_object_entry env context) dos st) |} ]
          = output st
            ++ [ {| group_name := friendlyBindingNames.durable_objects;
                    entries := fst (mapM (durable_object_entry env context) dos st) |} ]).
  now rewrite output_durable_object_entries.
Qed.

Lemma emits_at_most_services_group :
  emits_at_most (services_group env bindings context)
    friendlyBindingNames.services.
Proof.
  intros st. unfold services_group.
  destruct (services bindings) as [ss|];
    [destruct (nonempty ss)|]; cbn [when];
    try (apply emits_at_most_nothing; reflexivity).
  apply (emits_at_most_one _ _
           {| group_name := friendlyBindingNames.services;
              entries := fst (mapM (service_entry env context) ss st) |});
    [|reflexivity].
  rewrite exec_bind.
  change (output (exec (mapM (service_entry env context) ss) st)
          ++ [ {| group_name := friendlyBindingNames.services;
                  entries := fst (mapM (service_entry env context) ss st) |} ]
          = output st
            ++ [ {| group_name := friendlyBindingNames.services;
                    entries := fst (mapM (service_entry env context) ss st) |} ]).
  now rewrite output_service_entries.
Qed.

Ltac order_step :=
  eapply names_within_step;
  [ cbn [List.last]; reflexivity
  | discriminate
  | first [ apply emits_at_most_durable_objects_group
          | apply emits_at_most_services_group
          | solve_emits_at_most ]
  | cbn [List.removelast] ].

(** X9. The names of the groups of the output, in output order, are
    picked in order from one fixed list: whatever the input, a group
    of a kind comes after the groups of the kinds before it in
    [group_order], and each position of that list gives at most one
    group. *)
Theorem groups_in_fixed_order :
  sublist
    (map group_name (output (printBindings env bindings tailConsumers context)))
    group_order.
Proof.
  rewrite printBindings_exec. unfold printBindings_body. rewrite !exec_seq.
  rewrite output_log_footnote, output_log_tail_consumers, output_log_bindings.
  unfold group_order.
  do 27 order_step.
  apply sublist_nil.
Qed.

(** X10. The tail consumers add no group and change no group: the
    output is the one of the run without tail consumers. *)
Theorem output_ignores_tail_consumers :
  output (printBindings env bindings tailConsumers context)
  = output (printBindings env bindings [] context).
Proof.
  rewrite !printBindings_exec. unfold printBindings_body. rewrite !exec_seq.
  now rewrite !output_log_footnote, !output_log_tail_consumers.
Qed.
End GroupOrder.


(** ** What a run logs *)

Lemma preserves_logged_push events group : preserves (logged_is events) (push group).
Proof. intros st Hst. exact Hst. Qed.

Lemma preserves_logged_readRegistry events context service :
  preserves (logged_is events) (readRegistry context service).
Proof. intros st Hst. exact Hst. Qed.

Lemma preserves_logged_setHasConnectionStatus events :
  preserves (logged_is events) setHasConnectionStatus.
Proof. intros st Hst. exact Hst. Qed.

Ltac logged_leaf :=
  first [ apply preserves_logged_push | apply preserves_logged_readRegistry
        | apply preserves_logged_setHasConnectionStatus ].

Lemma logged_unchanged_of_preserves {A} (m : M A) :
  (forall events, preserves (logged_is events) m) ->
  forall st, logged (exec m st) = logged st.
Proof. intros Hm st. now apply (Hm (logged st)). Qed.

Lemma output_nil_step {A} (m : M A) (st : PrintState) :
  appends m -> output (exec m st) = [] -> output st = [].
Proof.
  intros Hm Hnil. destruct (Hm st) as [groups Heq]. rewrite Heq in Hnil.
  now apply app_eq_nil in Hnil.
Qed.

Section Logging.
Context `{Builtins}.
Variable env : Env.
Variable bindings : Bindings.
Variable tailConsumers : list CfTailConsumer.
Variable context : Context.

Lemma logged_log_bindings st :
  logged (exec (log_bindings env context) st)
  = logged st ++ inventory_events env context (output st).
Proof.
  unfold exec, log_bindings, getOutput, bind, when, emit, ret,
    inventory_events, inventory_title.
  destruct (output st) as [|g groups]; cbn [length Nat.eqb].
  - now destruct (named_multiworker env context).
  - destruct (truthy_obool (local context)); cbn [snd logged app];
      [now rewrite <- app_assoc | reflexivity].
Qed.

Lemma logged_tail_consumer_lines ts st :
  logged (exec (mapM (tail_consumer_line env context) ts) st) = logged st.
Proof.
  revert st. apply logged_unchanged_of_preserves. intros events.
  apply preserves_mapM. intros t. unfold tail_consumer_line. cbv zeta.
  preserves_walk logged_leaf.
Qed.

Lemma logged_log_tail_consumers st :
  exists message,
    logged (exec (log_tail_consumers env tailConsumers context) st)
    = logged st ++ (if nonempty tailConsumers then [ Log message ] else []).
Proof.
  unfold log_tail_consumers. cbv zeta.
  destruct (nonempty tailConsumers); cbn [when].
  - rewrite exec_bind. eexists.
    unfold exec at 1. cbv beta. unfold emit. cbn [snd logged].
    now rewrite logged_tail_consumer_lines.
  - exists EmptyString. cbn. now rewrite app_nil_r.
Qed.

(** The groups are built without logging; then come the inventory, the
    tail consumers and the footnote. *)
Lemma logged_printBindings :
  exists message,
    logged (printBindings env bindings tailConsumers context)
    = inventory_events env context
        (output (printBindings env bindings tailConsumers context))
      ++ (if nonempty tailConsumers then [ Log message ] else [])
      ++ (if hasConnectionStatus (printBindings env bindings tailConsumers context)
          then [ OnceInfo (connection_status_footnote env) ]
          else []).
Proof.
  rewrite printBindings_exec. unfold printBindings_body. rewrite !exec_seq.
  rewrite exec_log_footnote. cbn [logged output hasConnectionStatus].
  match goal with
  | |- context [exec (log_tail_consumers env tailConsumers context) ?s] =>
      destruct (logged_log_tail_consumers s) as [message Htail]
  end.
  exists message. rewrite Htail, output_log_tail_consumers.
  rewrite logged_log_bindings, output_log_bindings.
  do 27 match goal with
        | |- context [logged (exec ?m ?s)] =>
            rewrite (logged_unchanged_of_preserves m)
              by (intros ?; autounfold with steps;
                  unfold durable_object_entry, service_entry; cbv zeta;
                  preserves_walk logged_leaf)
        end.
  cbn [logged initialState app]. now rewrite <- !app_assoc.
Qed.
End Logging.

Section LoggingProperties.
Context `{Builtins}.
Variable env : Env.
Variable bindings : Bindings.
Variable tailConsumers : list CfTailConsumer.
Variable context : Context.


Lemma output_nil_durable_objects_group st :
  output (exec (durable_objects_group env bindings context) st) = [] ->
  default [] (durable_objects bindings) = [] /\ output st = [].
Proof.
  unfold durable_objects_group.
  destruct (durable_objects bindings) as [[|b dos]|]; cbn [from_option id];
    try (intros Hnil; split; [reflexivity | exact Hnil]).
  cbn [nonempty length Nat.ltb Nat.leb when]. rewrite exec_bind.
  unfold exec at 1. cbv beta. unfold push. cbn [snd output].
  intros Hnil. apply app_eq_nil in Hnil as [_ Hnil]. discriminate.
Qed.

Lemma output_nil_services_group st :
  output (exec (services_group env bindings context) st) = [] ->
  default [] (services bindings) = [] /\ output st = [].
Proof.
  unfold services_group.
  destruct (services bindings) as [[|b ss]|]; cbn [from_option id];
    try (intros Hnil; split; [reflexivity | exact Hnil]).
  cbn [nonempty length Nat.ltb Nat.leb when]. rewrite exec_bind.
  unfold exec at 1. cbv beta. unfold push. cbn [snd output].
  intros Hnil. apply app_eq_nil in Hnil as [_ Hnil]. discriminate.
Qed.

(** X12. A run without any group and without tail consumers logs one
    line and nothing else: "No bindings found.", or "No bindings found
    for <name>" when the context has a name and the MULTIWORKER flag is
    on. *)
Theorem empty_inventory_log :
  output (printBindings env bindings tailConsumers context) = [] ->
  tailConsumers = [] ->
  logged (printBindings env bindings tailConsumers context)
  = [ Log (if named_multiworker env context
           then "No bindings found for "
                  +:+ chalk_blue env (default EmptyString (name context))
           else "No bindings found.") ].
Proof.
  intros Hout Htail.
  assert (Hflag : hasConnectionStatus
                    (printBindings env bindings tailConsumers context) = false).
  { pose proof (printBindings_body_tracks_reads env bindings tailConsumers context
                  initialState status_tracks_reads_initial) as Hinv.
    unfold status_tracks_reads, on_status in Hinv.
    rewrite reads_printBindings_body in Hinv.
    rewrite printBindings_exec in Hout |- *.
    destruct (hasConnectionStatus
                (exec (printBindings_body env bindings tailConsumers context)
                   initialState)); [|reflexivity].
    exfalso. apply (proj2 Hinv eq_refl). clear Hinv.
    unfold printBindings_body in Hout. rewrite !exec_seq in Hout.
    do 17 (apply output_nil_step in Hout;
           [| first [ apply appends_log_tail_consumers | solve_appends ] ]).
    apply output_nil_services_group in Hout as [Hservices Hout].
    do 10 (apply output_nil_step in Hout; [| solve_appends ]).
    apply output_nil_durable_objects_group in Hout as [Hdos _].
    unfold expected_reads. rewrite Hdos, Hservices, Htail.
    now destruct (resolves_connections context). }
  destruct (logged_printBindings env bindings tailConsumers context)
    as [message ->].
  rewrite Hout, Hflag, Htail. reflexivity.
Qed.
End LoggingProperties.

Lemma empty_inventory_log_witness :
  logged (printBindings plain_env
            (sample_bindings None None None None None) []
            (local_context Undefined))
  = [ Log "No bindings found." ].
Proof.
  apply (empty_inventory_log plain_env (sample_bindings None None None None None)
           [] (local_context Undefined)); reflexivity.
Defined.

Lemma groups_populated_unless_empty_metadata_witness :
  groups_populated
    (printBindings plain_env unsafe_bindings_sample []
       (local_context Undefined)).
Proof.
  apply (groups_populated_unless_empty_metadata plain_env unsafe_bindings_sample
           [] (local_context Undefined)).
  discriminate.
Defined.


(** ** What a run does not depend on *)

Lemma bind_ext {A B} (m m' : M A) (k k' : A -> M B) (st : PrintState) :
  (forall st', m st' = m' st') ->
  (forall a st', k a st' = k' a st') ->
  bind m k st = bind m' k' st.
Proof.
  intros Hm Hk. unfold bind. rewrite Hm. destruct (m' st). apply Hk.
Qed.

Lemma exec_ext {A} (m m' : M A) (st st' : PrintState) :
  (forall s, m s = m' s) -> st = st' -> exec m st = exec m' st'.
Proof. intros Hm ->. unfold exec. now rewrite Hm. Qed.

Lemma mapM_ext {A B} (f g : A -> M B) (l : list A) (st : PrintState) :
  (forall x st', f x st' = g x st') -> mapM f l st = mapM g l st.
Proof.
  intros Hfg. revert st. induction l as [|x l IH]; intros st; cbn [mapM].
  - reflexivity.
  - apply bind_ext; [apply Hfg | intros y st1].
    apply bind_ext; [apply IH | reflexivity].
Qed.

Section RegistryUnused.
Context `{Builtins}.
Variable env : Env.
Variable bindings : Bindings.
Variable tailConsumers : list CfTailConsumer.
Variable context : Context.
Variable r : Nullable WorkerRegistry.
Hypothesis Hlocal : truthy_obool (local context) = false.

Lemma durable_object_entry_registry_unused b st :
  durable_object_entry env context b st
  = durable_object_entry env (with_registry context r) b st.
Proof.
  unfold durable_object_entry, with_registry. cbn [local].
  now rewrite Hlocal.
Qed.

Lemma service_entry_registry_unused b st :
  service_entry env context b st
  = service_entry env (with_registry context r) b st.
Proof.
  unfold service_entry, with_registry, addSuffix. cbn [local provisioning].
  now rewrite Hlocal.
Qed.

Lemma tail_consumer_line_registry_unused t st :
  tail_consumer_line env context t st
  = tail_consumer_line env (with_registry context r) t st.
Proof.
  unfold tail_consumer_line, with_registry. cbn [local].
  now rewrite Hlocal.
Qed.

Lemma durable_objects_group_registry_unused st :
  durable_objects_group env bindings context st
  = durable_objects_group env bindings (with_registry context r) st.
Proof.
  unfold durable_objects_group.
  destruct (durable_objects bindings) as [dos|]; [|reflexivity].
  destruct (nonempty dos); cbn [when]; [|reflexivity].
  apply bind_ext; [|reflexivity]. intros st'.
  apply mapM_ext, durable_object_entry_registry_unused.
Qed.

Lemma services_group_registry_unused st :
  services_group env bindings context st
  = services_group env bindings (with_registry context r) st.
Proof.
  unfold services_group.
  destruct (services bindings) as [ss|]; [|reflexivity].
  destruct (nonempty ss); cbn [when]; [|reflexivity].
  apply bind_ext; [|reflexivity]. intros st'.
  apply mapM_ext, service_entry_registry_unused.
Qed.

Lemma log_tail_consumers_registry_unused st :
  log_tail_consumers env tailConsumers context st
  = log_tail_consumers env tailConsumers (with_registry context r) st.
Proof.
  unfold log_tail_consumers. cbv zeta.
  destruct (nonempty tailConsumers); cbn [when]; [|reflexivity].
  apply bind_ext; [|reflexivity]. intros st'.
  apply mapM_ext, tail_consumer_line_registry_unused.
Qed.

Lemma printBindings_body_registry_unused st :
  printBindings_body env bindings tailConsumers context st
  = printBindings_body env bindings tailConsumers (with_registry context r) st.
Proof.
  unfold printBindings_body.
  do 29 (apply bind_ext;
         [ intros ?;
           lazymatch goal with
           | |- durable_objects_group _ _ _ _ = _ =>
               apply durable_objects_group_registry_unused
           | |- services_group _ _ _ _ = _ =>
               apply services_group_registry_unused
           | |- log_tail_consumers _ _ _ _ = _ =>
               apply log_tail_consumers_registry_unused
           | |- _ => reflexivity
           end
         | intros [] ? ]).
  reflexivity.
Qed.

(** X14. Outside local dev the registry plays no part: the run, that
    is the output, the flag, the lookups and everything logged, is the
    same whatever the registry of the context, missing and [null]
    included. *)
Theorem registry_unused_outside_local_dev :
  printBindings env bindings tailConsumers (with_registry context r)
  = printBindings env bindings tailConsumers context.
Proof.
  unfold printBindings.
  now rewrite <- printBindings_body_registry_unused.
Qed.
End RegistryUnused.

Lemma registry_unused_outside_local_dev_witness :
  printBindings plain_env counter_bindings [ auth_tail ]
    (remote_context (Defined counter_registry))
  = printBindings plain_env counter_bindings [ auth_tail ]
      (remote_context Undefined).
Proof.
  apply (registry_unused_outside_local_dev plain_env counter_bindings
           [ auth_tail ] (remote_context Undefined) (Defined counter_registry)).
  reflexivity.
Defined.

(** X15. The name of the context and the MULTIWORKER flag only change
    titles: the output, the flag and the lookups of a run are the same
    whatever they are. *)
Theorem name_changes_titles_only `{Builtins}
    (env : Env) (bindings : Bindings) (tailConsumers : list CfTailConsumer)
    (context : Context) (n : option string) (flag : bool) :
  output (printBindings (with_MULTIWORKER env flag) bindings tailConsumers
            (with_name context n))
  = output (printBindings env bindings tailConsumers context)
  /\ hasConnectionStatus
       (printBindings (with_MULTIWORKER env flag) bindings tailConsumers
          (with_name context n))
     = hasConnectionStatus (printBindings env bindings tailConsumers context)
  /\ registryReads
       (printBindings (with_MULTIWORKER env flag) bindings tailConsumers
          (with_name context n))
     = registryReads (printBindings env bindings tailConsumers context).
Proof.
  assert (Hreads : registryReads
                     (printBindings (with_MULTIWORKER env flag) bindings
                        tailConsumers (with_name context n))
                   = registryReads
                       (printBindings env bindings tailConsumers context)).
  { rewrite !printBindings_exec, !reads_printBindings_body. reflexivity. }
  split; [|split; [|exact Hreads]].
  - rewrite !printBindings_exec. unfold printBindings_body. rewrite !exec_seq.
    rewrite !output_log_footnote, !output_log_tail_consumers,
      !output_log_bindings.
    apply (f_equal output).
    do 27 (apply exec_ext; [intros ?; reflexivity |]).
    reflexivity.
  - pose proof (printBindings_body_tracks_reads (with_MULTIWORKER env flag)
                  bindings tailConsumers (with_name context n)
                  initialState status_tracks_reads_initial) as Hnew.
    pose proof (printBindings_body_tracks_reads env bindings tailConsumers
                  context initialState status_tracks_reads_initial) as Hold.
    unfold status_tracks_reads, on_status in Hnew, Hold.
    rewrite !printBindings_exec in *. rewrite Hreads in Hnew.
    destruct (hasConnectionStatus
                (exec (printBindings_body (with_MULTIWORKER env flag) bindings
                         tailConsumers (with_name context n)) initialState));
      destruct (hasConnectionStatus
                  (exec (printBindings_body env bindings tailConsumers context)
                     initialState)); try reflexivity.
    + assert (Habsurd : false = true) by (apply Hold, Hnew; reflexivity).
      discriminate Habsurd.
    + assert (Habsurd : false = true) by (apply Hnew, Hold; reflexivity).
      discriminate Habsurd.
Qed.


(** ** The base URL of the API *)

(** X16. [getCloudflareApiBaseUrl], with the getter factory as the
    spec describes it: the value is always defined; a value of
    CLOUDFLARE_API_BASE_URL is returned as it is, without notice, even
    when CF_API_BASE_URL is set too; with only CF_API_BASE_URL set its
    value is returned, with a deprecation notice on the first such call
    and none afterwards; with neither, the staging URL is returned
    exactly when WRANGLER_API_ENVIRONMENT is "staging", and the
    production URL for every other value or none. *)
Theorem getCloudflareApiBaseUrl_resolution (hasWarned : bool) (env : ProcessEnv) :
  is_Some (fst (fst (getCloudflareApiBaseUrl hasWarned env)))
  /\ (forall url, env !! "CLOUDFLARE_API_BASE_URL" = Some url ->
        getCloudflareApiBaseUrl hasWarned env = (Some url, [], hasWarned))
  /\ (forall url, env !! "CLOUDFLARE_API_BASE_URL" = None ->
        env !! "CF_API_BASE_URL" = Some url ->
        getCloudflareApiBaseUrl hasWarned env
        = (Some url,
           if hasWarned then []
           else [ {| deprecated_name := "CF_API_BASE_URL";
                     canonical_name := "CLOUDFLARE_API_BASE_URL" |} ],
           true))
  /\ (env !! "CLOUDFLARE_API_BASE_URL" = None ->
      env !! "CF_API_BASE_URL" = None ->
      getCloudflareApiBaseUrl hasWarned env
      = (Some (if bool_decide (env !! "WRANGLER_API_ENVIRONMENT" = Some "staging")
               then "https://api.staging.cloudflare.com/client/v4"
               else "https://api.cloudflare.com/client/v4"), [], hasWarned)).
Proof.
  unfold getCloudflareApiBaseUrl, getCloudflareApiEnvironmentFromEnv,
    getEnvironmentVariableFactory.
  split; [|split; [|split]].
  - destruct (env !! "CLOUDFLARE_API_BASE_URL"); [cbn; eauto|].
    destruct (env !! "CF_API_BASE_URL"); cbn; eauto.
  - intros url ->. reflexivity.
  - intros url -> ->. reflexivity.
  - intros -> ->. cbn [option_map fst].
    destruct (env !! "WRANGLER_API_ENVIRONMENT") as [environment|] eqn:Henv;
      cbn [fst option_map].
    + destruct (String.eqb_spec environment "staging") as [-> | Hne].
      * now rewrite bool_decide_eq_true_2.
      * rewrite bool_decide_eq_false_2; [reflexivity | congruence].
    + rewrite bool_decide_eq_false_2; [|discriminate].
      reflexivity.
Qed.

Lemma getCloudflareApiBaseUrl_resolution_witness :
  getCloudflareApiBaseUrl false staging_env
  = (Some "https://api.staging.cloudflare.com/client/v4", [], false)
  /\ getCloudflareApiBaseUrl false
       (<[ "CF_API_BASE_URL" := "http://localhost" ]> staging_env)
     = (Some "http://localhost",
        [ {| deprecated_name := "CF_API_BASE_URL";
             canonical_name := "CLOUDFLARE_API_BASE_URL" |} ], true)
  /\ getCloudflareApiBaseUrl true
       (<[ "CLOUDFLARE_API_BASE_URL" := "http://127.0.0.1" ]>
          (<[ "CF_API_BASE_URL" := "http://localhost" ]> staging_env))
     = (Some "http://127.0.0.1", [], true).
Proof.
  split; [|split].
  - apply (proj2 (proj2 (proj2 (getCloudflareApiBaseUrl_resolution false
                                  staging_env))));
      reflexivity.
  - apply (proj1 (proj2 (proj2 (getCloudflareApiBaseUrl_resolution false
                                  (<[ "CF_API_BASE_URL" := "http://localhost" ]>
                                     staging_env)))));
      reflexivity.
  - apply (proj1 (proj2 (getCloudflareApiBaseUrl_resolution true
                           (<[ "CLOUDFLARE_API_BASE_URL" := "http://127.0.0.1" ]>
                              (<[ "CF_API_BASE_URL" := "http://localhost" ]>
                                 staging_env)))));
      reflexivity.
Defined.


Lemma hasConnectionStatus_iff_witness :
  hasConnectionStatus
    (printBindings plain_env counter_bindings [] (local_context Undefined))
  = true.
Proof.
  apply (proj2 (hasConnectionStatus_iff plain_env counter_bindings []
                  (local_context Undefined))).
  split; [reflexivity|].
  left. exists counter_binding. split; [now left | reflexivity].
Defined.

